(** * terminal-walker: Markov chain random walks until absorption

    A shallow embedding of the notebook [main.ipynb]: the cumulative
    matrix builder, the inverse-CDF state sampler, the two simulation
    loops (a fixed number of steps, a fixed number of walks), the
    holding-time cell and the absorption-proportion cell.

    Numbers.  The notebook computes with NumPy float64 values.  They are
    modelled by [Float.float]: an exact rational, the zero -0.0, or one
    of the IEEE special values +inf, -inf and NaN, with the IEEE rules
    for the special values and for the sign of zero (x/0, inf-inf,
    comparisons with NaN).  Finite arithmetic is exact: rounding and
    overflow are not modelled, and arrays of integer dtype are read as
    arrays of floats.

    Randomness.  [np.random.rand()] and [np.random.exponential] read the
    global generator; here the sequence of values the generator will
    return is an explicit argument [draws : nat -> float] and the number
    of values consumed so far is threaded through the code. *)

From Stdlib Require Import ZArith QArith Qabs List Bool Arith Lia Lqa.
From Stdlib Require String.
Import String.StringSyntax.
Import ListNotations.

Set Implicit Arguments.
Close Scope Q_scope.

(** ** float64 values *)

Module Float.
Local Open Scope Q_scope.

(** [Fin q] with [q == 0] is the zero +0.0; [NZero] is the zero -0.0. *)
Inductive float : Type :=
| Fin (q : Q)
| PInf
| NInf
| NaN
| NZero.

Definition Qltb (a b : Q) : bool := negb (Qle_bool b a).

Definition zero : float := Fin 0.
Definition one : float := Fin 1.

(** [x < y]: false as soon as one side is NaN; the two zeros compare
    equal. *)
Definition ltb (x y : float) : bool :=
  match x, y with
  | NaN, _ | _, NaN => false
  | Fin a, Fin b => Qltb a b
  | Fin a, NZero => Qltb a 0
  | NZero, Fin b => Qltb 0 b
  | NZero, NZero => false
  | (Fin _ | NZero), PInf => true
  | (Fin _ | NZero), NInf => false
  | PInf, _ => false
  | NInf, NInf => false
  | NInf, _ => true
  end.

Definition neg (x : float) : float :=
  match x with
  | Fin a => if Qeq_bool a 0 then NZero else Fin (- a)
  | PInf => NInf
  | NInf => PInf
  | NaN => NaN
  | NZero => Fin 0
  end.

(** An exact sum that is zero is +0.0, except for -0.0 + -0.0. *)
Definition add (x y : float) : float :=
  match x, y with
  | NaN, _ | _, NaN => NaN
  | Fin a, Fin b => Fin (a + b)
  | Fin a, NZero | NZero, Fin a => Fin a
  | NZero, NZero => NZero
  | PInf, NInf | NInf, PInf => NaN
  | PInf, _ | _, PInf => PInf
  | NInf, _ | _, NInf => NInf
  end.

Definition sub (x y : float) : float := add x (neg y).

Definition abs (x : float) : float :=
  match x with
  | Fin a => Fin (Qabs a)
  | PInf | NInf => PInf
  | NaN => NaN
  | NZero => Fin 0
  end.

(** The sign bit; that of a NaN is not modelled and reads as clear. *)
Definition signbit (x : float) : bool :=
  match x with
  | Fin a => Qltb a 0
  | NInf | NZero => true
  | PInf | NaN => false
  end.

(** The sign of a finite value decides the sign of an infinite product
    or quotient; a zero there gives NaN (0 * inf, 0 / 0). *)
Definition signed_inf (a : Q) (positive : float) : float :=
  if Qeq_bool a 0 then NaN
  else if Qltb 0 a then positive else neg positive.

(** A zero product or quotient is -0.0 when the signs of the operands
    differ. *)
Definition mul (x y : float) : float :=
  match x, y with
  | NaN, _ | _, NaN => NaN
  | Fin a, Fin b =>
      if andb (Qeq_bool (a * b) 0) (xorb (Qltb a 0) (Qltb b 0))
      then NZero else Fin (a * b)
  | Fin a, NZero | NZero, Fin a => if Qltb a 0 then Fin 0 else NZero
  | NZero, NZero => Fin 0
  | Fin a, PInf | PInf, Fin a => signed_inf a PInf
  | Fin a, NInf | NInf, Fin a => signed_inf a NInf
  | NZero, (PInf | NInf) | (PInf | NInf), NZero => NaN
  | PInf, PInf | NInf, NInf => PInf
  | PInf, NInf | NInf, PInf => NInf
  end.

(** NumPy division: a zero divisor raises nothing, it yields an
    infinity whose sign is that of the dividend times that of the zero,
    or NaN for 0/0. *)
Definition div (x y : float) : float :=
  match x, y with
  | NaN, _ | _, NaN => NaN
  | Fin a, Fin b =>
      if Qeq_bool b 0 then signed_inf a PInf
      else if andb (Qeq_bool a 0) (Qltb b 0) then NZero
      else Fin (a / b)
  | Fin a, NZero => signed_inf a NInf
  | NZero, Fin b =>
      if Qeq_bool b 0 then NaN else if Qltb b 0 then Fin 0 else NZero
  | NZero, NZero => NaN
  | Fin a, PInf => if Qltb a 0 then NZero else Fin 0
  | Fin a, NInf => if Qltb a 0 then Fin 0 else NZero
  | NZero, PInf => NZero
  | NZero, NInf => Fin 0
  | PInf, Fin b => if Qltb b 0 then NInf else PInf
  | NInf, Fin b => if Qltb b 0 then PInf else NInf
  | PInf, NZero => NInf
  | NInf, NZero => PInf
  | (PInf | NInf), (PInf | NInf) => NaN
  end.

(** [np.sum] over a 1-D array; the reduction starts from +0.0. *)
Definition sum (v : list float) : float := fold_left add v zero.

Definition is_finite (x : float) : bool :=
  match x with Fin _ | NZero => true | _ => false end.

(** A finite value that is at least 0 (either zero included). *)
Definition nonneg (x : float) : Prop :=
  match x with Fin a => 0 <= a | NZero => True | _ => False end.

(** [x <= y] on finite values, used to state monotonicity. *)
Definition le (x y : float) : Prop :=
  match x, y with Fin a, Fin b => a <= b | _, _ => False end.

End Float.

Import Float.

(** ** Python exceptions and results *)

Inductive exn : Type :=
| AssertionError (msg : String.string)
| ZeroDivisionError
| IndexError
| TypeError
| ValueError.

Inductive outcome (A : Type) : Type :=
| Ok (a : A)
| Raise (e : exn).
Arguments Ok {A} a.
Arguments Raise {A} e.

Definition bind {A B} (m : outcome A) (f : A -> outcome B) : outcome B :=
  match m with
  | Ok a => f a
  | Raise e => Raise e
  end.

Notation "x <- m ;; k" := (bind m (fun x => k))
  (at level 61, m at next level, right associativity).

(** ** NumPy arrays of rank 1 and 2 *)

Inductive ndarray : Type :=
| A1 (v : list float)
| A2 (m : list (list float)).

(** [np.array] on a nested list of rows; the empty list gives the
    rank-1 array of shape (0,). *)
Definition np_array (rows : list (list float)) : ndarray :=
  match rows with
  | [] => A1 []
  | _ => A2 rows
  end.

Definition shape (a : ndarray) : list nat :=
  match a with
  | A1 v => [length v]
  | A2 m => [length m; length (hd [] m)]
  end.

(** Every row has the length of the first one. *)
Definition rectangular (m : list (list float)) : Prop :=
  forall row, In row m -> length row = length (hd [] m).

(** Rows of the transposed matrix: row [s] collects entry [s] of every
    column. *)
Definition transpose (cols : list (list float)) : list (list float) :=
  map (fun s => map (fun col => nth s col zero) cols)
      (seq 0 (length (hd [] cols))).

Definition np_transpose (a : ndarray) : ndarray :=
  match a with
  | A1 v => A1 v
  | A2 m => A2 (transpose m)
  end.

(** ** cumulative_matrix *)

(** [cumulative_matrix] on a 1-D vector: [np.sum(m[:i])] for
    [i = 1 .. len m]; transposing a 1-D array changes nothing. *)
Definition cumulative_vector (v : list float) : list float :=
  map (fun i => sum (firstn i v)) (seq 1 (length v)).

(** On a 2-D array the comprehension builds one array per column index
    [i], holding for every row the sum of its first [i] entries; the
    list of these columns is turned into an array and transposed. *)
Definition cumulative_matrix (m : ndarray) : ndarray :=
  match m with
  | A1 v => A1 (cumulative_vector v)
  | A2 rows =>
      let ncols := length (hd [] rows) in
      np_transpose
        (np_array
           (map (fun i => map (fun row => sum (firstn i row)) rows)
                (seq 1 ncols)))
  end.

(** ** generate_state *)

Definition state : Type := option nat.   (* a Python int, or None *)

(** The loop [for j in range(len(PC_row)): if u < PC_row[j]: return j],
    started at index [j]; falling off the end returns None. *)
Fixpoint scan (u : float) (PC_row : list float) (j : nat) : state :=
  match PC_row with
  | [] => None
  | c :: rest => if ltb u c then Some j else scan u rest (S j)
  end.

(** [generate_state] on a row of cumulative probabilities, for the
    uniform draw [u]. *)
Definition generate_state (u : float) (PC_row : list float) : state :=
  scan u PC_row 0.

(** What [PC[i]] evaluates to: a scalar when [PC] has rank 1, a row when
    it has rank 2, and, when [i] is None, the whole array under one new
    leading axis (None is [np.newaxis]). *)
Inductive indexed : Type :=
| Scalar (x : float)
| Row (r : list float)
| Stacked (elems : list float).

Definition getitem (PC : ndarray) (i : state) : outcome indexed :=
  match PC, i with
  | A1 v, Some k =>
      match nth_error v k with
      | Some x => Ok (Scalar x)
      | None => Raise IndexError
      end
  | A2 m, Some k =>
      match nth_error m k with
      | Some r => Ok (Row r)
      | None => Raise IndexError
      end
  | A1 v, None => Ok (Stacked v)
  | A2 m, None => Ok (Stacked (concat m))
  end.

(** Truth value of a boolean array in an [if]: that of its only element,
    False when it is empty, an error when it has several elements. *)
Definition array_truth (bs : list bool) : outcome bool :=
  match bs with
  | [] => Ok false
  | [b] => Ok b
  | _ => Raise ValueError
  end.

(** [generate_state] on whatever [PC[i]] gave.  A scalar has no [len];
    a stacked array has length 1 and its element 0 is the whole array,
    so the test [u < PC_row[0]] is the truth value of an array. *)
Definition generate_state_on (u : float) (PC_row : indexed) : outcome state :=
  match PC_row with
  | Scalar _ => Raise TypeError
  | Row r => Ok (generate_state u r)
  | Stacked elems =>
      b <- array_truth (map (ltb u) elems) ;;
      Ok (if b then Some 0 else None)
  end.

(** ** Setup cell: row normalization and leaving rates *)

Record setup : Type := {
  P : ndarray;          (* P / row_sums *)
  q : list float        (* row_sums *)
}.

(** One row of [P / row_sums].  The weights are read as float64 values;
    sums and quotients of finite values are exact. *)
Definition normalize_row (row : list float) : list float :=
  map (fun x => div x (sum row)) row.

Definition setup_cell (weights : list (list float)) : setup :=
  match np_array weights with
  | A1 v => {| P := A1 (normalize_row v); q := [sum v] |}
  | A2 m => {| P := A2 (map normalize_row m); q := map sum m |}
  end.

Definition tolerance : float := Fin (1 # 100000)%Q.

(** One entry of [np.abs(np.sum(P, axis=-1) - 1) < 1e-5]. *)
Definition row_sum_ok (row : list float) : bool :=
  ltb (abs (sub (sum row) one)) tolerance.

(** [np.all(...)] of the assertion. *)
Definition row_sums_ok (p : ndarray) : bool :=
  match p with
  | A1 v => row_sum_ok v
  | A2 m => forallb row_sum_ok m
  end.

(** ** Simulation cell: a fixed number of steps *)

(** [starting_state] is an integer index or a list of probabilities. *)
Inductive starting : Type :=
| StartInt (s : nat)
| StartDist (p : list float).

(** [i in terminal_states]; None is in no list of integers. *)
Definition in_terminal (terminal_states : list nat) (i : state) : bool :=
  match i with
  | Some k => existsb (Nat.eqb k) terminal_states
  | None => false
  end.

(** The variables the loops read and update, and the number of random
    values consumed so far. *)
Record notebook : Type := {
  i : state;
  walk : list state;
  all_walks : list (list state);
  final_states : list state;
  rand_calls : nat
}.

Inductive status : Type :=
| Completed
| Raised (e : exn)
| Unfinished.          (* a [while] loop still running when the fuel ran out *)

Section Engine.

Variable PC : ndarray.
Variable starting_state : starting.
Variable terminal_states : list nat.
Variable draws : nat -> float.

(** [i = starting_state], or [i = generate_state(starting_state_C)]
    with [starting_state_C = cumulative_matrix(starting_state)]. *)
Definition first_state (k : nat) : state * nat :=
  match starting_state with
  | StartInt s => (Some s, k)
  | StartDist p => (generate_state (draws k) (cumulative_vector p), S k)
  end.

(** One round of [for step in range(steps)].  An exception leaves the
    variables as they were.  After [all_walks.append(walk)] the name
    [walk] is bound to a new list, so a stored walk is never changed
    again. *)
Definition simulation_step (nb : notebook) : notebook * option exn :=
  match getitem PC (i nb) with
  | Raise e => (nb, Some e)
  | Ok PC_row =>
      let k := S (rand_calls nb) in
      match generate_state_on (draws (rand_calls nb)) PC_row with
      | Raise e =>
          ({| i := i nb; walk := walk nb; all_walks := all_walks nb;
              final_states := final_states nb; rand_calls := k |}, Some e)
      | Ok i' =>
          let walk' := walk nb ++ [i'] in
          if in_terminal terminal_states i' then
            let (i0, k') := first_state k in
            ({| i := i0; walk := [i0];
                all_walks := all_walks nb ++ [walk'];
                final_states := final_states nb ++ [i'];
                rand_calls := k' |}, None)
          else
            ({| i := i'; walk := walk'; all_walks := all_walks nb;
                final_states := final_states nb; rand_calls := k |}, None)
      end
  end.

Fixpoint simulation_loop (steps : nat) (nb : notebook) : notebook * status :=
  match steps with
  | O => (nb, Completed)
  | S steps' =>
      match simulation_step nb with
      | (nb', Some e) => (nb', Raised e)
      | (nb', None) => simulation_loop steps' nb'
      end
  end.

(** ** Alternative loop: a fixed number of walks *)

(** [while i not in terminal_states]; every round uses one unit of
    fuel, and [Unfinished] reports that the fuel ran out first. *)
Fixpoint while_loop (fuel : nat) (nb : notebook) {struct fuel}
  : notebook * status :=
  if in_terminal terminal_states (i nb) then (nb, Completed)
  else
    match fuel with
    | O => (nb, Unfinished)
    | S fuel' =>
        match getitem PC (i nb) with
        | Raise e => (nb, Raised e)
        | Ok PC_row =>
            let k := S (rand_calls nb) in
            match generate_state_on (draws (rand_calls nb)) PC_row with
            | Raise e =>
                ({| i := i nb; walk := walk nb; all_walks := all_walks nb;
                    final_states := final_states nb; rand_calls := k |},
                 Raised e)
            | Ok i' =>
                while_loop fuel'
                  {| i := i'; walk := walk nb ++ [i'];
                     all_walks := all_walks nb;
                     final_states := final_states nb; rand_calls := k |}
            end
        end
    end.

(** One round of [for iteration in range(total_iterations)]. *)
Definition walk_iteration (fuel : nat) (nb : notebook) : notebook * status :=
  let (i0, k) := first_state (rand_calls nb) in
  match while_loop fuel
          {| i := i0; walk := [i0]; all_walks := all_walks nb;
             final_states := final_states nb; rand_calls := k |} with
  | (nb', Completed) =>
      ({| i := i nb'; walk := walk nb';
          all_walks := all_walks nb' ++ [walk nb'];
          final_states := final_states nb' ++ [i nb'];
          rand_calls := rand_calls nb' |}, Completed)
  | stopped => stopped
  end.

Fixpoint walk_budgeted_loop (fuel total_iterations : nat) (nb : notebook)
  : notebook * status :=
  match total_iterations with
  | O => (nb, Completed)
  | S n =>
      match walk_iteration fuel nb with
      | (nb', Completed) => walk_budgeted_loop fuel n nb'
      | stopped => stopped
      end
  end.

End Engine.

Section Message.
Local Open Scope string_scope.
Definition assert_message : String.string := "All row sums must be 1!".
End Message.

(** Before the cell has run no list exists and nothing was drawn. *)
Definition not_started : notebook :=
  {| i := None; walk := []; all_walks := []; final_states := [];
     rand_calls := 0 |}.

(** The simulation cell: the row-sum assertion, the cumulative matrix,
    the first state, then the loop.  [p] is the normalized matrix. *)
Definition simulation_cell (p : ndarray) (starting_state : starting)
    (terminal_states : list nat) (steps : nat) (draws : nat -> float)
  : notebook * status :=
  if negb (row_sums_ok p)
  then (not_started, Raised (AssertionError assert_message))
  else
    let PC := cumulative_matrix p in
    let (i0, k) := first_state starting_state draws 0 in
    simulation_loop PC starting_state terminal_states draws steps
      {| i := i0; walk := [i0]; all_walks := []; final_states := [];
         rand_calls := k |}.

(** Setup cell, then simulation cell, on the raw weights. *)
Definition run_notebook (weights : list (list float))
    (starting_state : starting) (terminal_states : list nat) (steps : nat)
    (draws : nat -> float) : notebook * status :=
  simulation_cell (P (setup_cell weights)) starting_state terminal_states
    steps draws.

(** ** Holding times *)

(** [q[i]]: [q] has shape (n, 1), so an integer selects a 1-element
    array and None the whole array under a new axis. *)
Definition q_getitem (q : list float) (i : state) : outcome (list float) :=
  match i with
  | Some k =>
      match nth_error q k with
      | Some rate => Ok [rate]
      | None => Raise IndexError
      end
  | None => Ok q
  end.

(** [np.random.exponential(scale)] for an array [scale]: a scale with
    its sign bit set (negative, -inf or -0.0) is refused with "scale < 0";
    otherwise each entry is the scale times a standard exponential
    variate, read from [draws] at position [k] onwards. *)
Definition exponential (scale : list float) (draws : nat -> float) (k : nat)
  : outcome (list float) :=
  if existsb signbit scale then Raise ValueError
  else Ok (map (fun ns => mul (snd ns) (draws (k + fst ns)))
               (combine (seq 0 (length scale)) scale)).

(** The inner loop [for i in walk[:]]: one draw per visited state. *)
Fixpoint walk_times (q : list float) (draws : nat -> float) (k : nat)
    (walk : list state) : outcome (list (list float) * nat) :=
  match walk with
  | [] => Ok ([], k)
  | i :: rest =>
      rate <- q_getitem q i ;;
      t <- exponential (map (div one) rate) draws k ;;
      r <- walk_times q draws (k + length rate) rest ;;
      Ok (t :: fst r, snd r)
  end.

(** The outer loop over [all_walks]. *)
Fixpoint all_times (q : list float) (draws : nat -> float) (k : nat)
    (all_walks : list (list state))
  : outcome (list (list (list float)) * nat) :=
  match all_walks with
  | [] => Ok ([], k)
  | walk :: rest =>
      wt <- walk_times q draws k walk ;;
      r <- all_times q draws (snd wt) rest ;;
      Ok (fst wt :: fst r, snd r)
  end.

(** ** Proportion of walks ending in each terminal state *)

(** [i == j] for a recorded state [i] and an integer [j]. *)
Definition state_eqb (i : state) (j : nat) : bool :=
  match i with
  | Some k => Nat.eqb k j
  | None => false
  end.

(** [sum([1 for i in final_states if i == j])]. *)
Definition absorbed (final_states : list state) (j : nat) : nat :=
  length (filter (fun i => state_eqb i j) final_states).

(** Python's [/] on two integers. *)
Definition py_div (a b : nat) : outcome float :=
  if Nat.eqb b 0 then Raise ZeroDivisionError
  else Ok (Fin (inject_Z (Z.of_nat a) / inject_Z (Z.of_nat b))).

(** The list comprehension over [terminal_states]. *)
Fixpoint absorption_proportions (terminal_states : list nat)
    (final_states : list state) : outcome (list float) :=
  match terminal_states with
  | [] => Ok []
  | j :: rest =>
      p <- py_div (absorbed final_states j) (length final_states) ;;
      ps <- absorption_proportions rest final_states ;;
      Ok (p :: ps)
  end.

(** ** Mean walk length, peaks and time in each state *)

(** [np.mean] of a list of integers: the sum divided by the count, NaN
    for the empty list. *)
Definition np_mean (l : list Z) : float :=
  div (Fin (inject_Z (fold_right Z.add 0%Z l)))
      (Fin (inject_Z (Z.of_nat (length l)))).

(** [np.mean([len(w) - 1 for w in all_walks])]. *)
Definition walk_steps (all_walks : list (list state)) : float :=
  np_mean (map (fun w => (Z.of_nat (length w) - 1)%Z) all_walks).

(** [item > maxitem] as [max] evaluates it; None is not ordered. *)
Definition py_gt (a b : state) : outcome bool :=
  match a, b with
  | Some x, Some y => Ok (Nat.ltb y x)
  | _, _ => Raise TypeError
  end.

Fixpoint max_from (maxitem : state) (rest : list state) : outcome state :=
  match rest with
  | [] => Ok maxitem
  | item :: rest' =>
      b <- py_gt item maxitem ;;
      max_from (if b then item else maxitem) rest'
  end.

(** Python's [max] on a list. *)
Definition py_max (w : list state) : outcome state :=
  match w with
  | [] => Raise ValueError
  | first :: rest => max_from first rest
  end.

(** [peaks = [max(w) for w in all_walks]]. *)
Fixpoint peaks (all_walks : list (list state)) : outcome (list state) :=
  match all_walks with
  | [] => Ok []
  | w :: rest =>
      m <- py_max w ;;
      ms <- peaks rest ;;
      Ok (m :: ms)
  end.

(** [len(P)] and [all_states = [i for i in range(len(P))]]. *)
Definition np_len (a : ndarray) : nat :=
  match a with
  | A1 v => length v
  | A2 m => length m
  end.

Definition all_states (p : ndarray) : list nat := seq 0 (np_len p).

(** The comprehension of the peaks cell is the one of the absorption
    cell, over [all_states] and [peaks]. *)
Definition peak_proportions (p : ndarray) (all_walks : list (list state))
  : outcome (list float) :=
  ms <- peaks all_walks ;;
  absorption_proportions (all_states p) ms.

(** [flattend_walks = [t for w in all_walks for t in w]], then the same
    comprehension over [all_states]. *)
Definition time_in_state (p : ndarray) (all_walks : list (list state))
  : outcome (list float) :=
  absorption_proportions (all_states p) (concat all_walks).

(** ** Vocabulary of the properties *)

(** [j] is the smallest index whose cumulative value exceeds [u]. *)
Definition first_exceeding (u : float) (PC_row : list float) (j : nat) : Prop :=
  (exists c, nth_error PC_row j = Some c /\ ltb u c = true) /\
  (forall k c, k < j -> nth_error PC_row k = Some c -> ltb u c = false).

(** Entry (s, j) of a rank-2 array. *)
Definition entry (a : ndarray) (s j : nat) : option float :=
  match a with
  | A1 _ => None
  | A2 m =>
      match nth_error m s with
      | Some row => nth_error row j
      | None => None
      end
  end.

(** The rows of a rank-2 array. *)
Definition rows (a : ndarray) : list (list float) :=
  match a with
  | A1 _ => []
  | A2 m => m
  end.

Definition nondecreasing (v : list float) : Prop :=
  forall j x y, nth_error v j = Some x -> nth_error v (S j) = Some y -> le x y.

(** Within the tolerance of the row-sum assertion from 1. *)
Definition near_one (x : float) : Prop :=
  ltb (abs (sub x one)) tolerance = true.

(** A stored walk ends with a terminal state. *)
Definition ends_terminal (terminal_states : list nat) (w : list state) : Prop :=
  exists body f, w = body ++ [f] /\ in_terminal terminal_states f = true.

(** No position strictly between the first and the last holds a terminal
    state. *)
Definition no_interior_terminal (terminal_states : list nat)
    (w : list state) : Prop :=
  forall k s, 0 < k -> S k < length w -> nth_error w k = Some s ->
              in_terminal terminal_states s = false.

Definition completed_walk (terminal_states : list nat) (w : list state) : Prop :=
  ends_terminal terminal_states w /\ no_interior_terminal terminal_states w.

(** The last state is terminal and it is the only terminal one. *)
Definition absorbed_at_end (terminal_states : list nat)
    (w : list state) : Prop :=
  exists body f, w = body ++ [f] /\ in_terminal terminal_states f = true /\
                 Forall (fun s => in_terminal terminal_states s = false) body.

(** The two output lists agree position by position. *)
Definition parallel (all_walks : list (list state))
    (final_states : list state) : Prop :=
  Forall2 (fun w f => exists body, w = body ++ [f]) all_walks final_states.

Definition recorded_terminal (terminal_states : list nat)
    (final_states : list state) : Prop :=
  Forall (fun f => in_terminal terminal_states f = true) final_states.

(** What every round of the step loop preserves. *)
Definition step_inv (terminal_states : list nat) (nb : notebook) : Prop :=
  Forall (fun w => completed_walk terminal_states w /\ 2 <= length w)
         (all_walks nb) /\
  (exists body, walk nb = body ++ [i nb]) /\
  (forall k s, 0 < k -> nth_error (walk nb) k = Some s ->
               in_terminal terminal_states s = false) /\
  parallel (all_walks nb) (final_states nb) /\
  recorded_terminal terminal_states (final_states nb).

(** What the walk loop does to the output lists: it appends walks that
    are absorbed at their end, and their final states, in step. *)
Definition extends (terminal_states : list nat) (nb nb' : notebook) : Prop :=
  exists ws fs,
    all_walks nb' = all_walks nb ++ ws /\
    final_states nb' = final_states nb ++ fs /\
    Forall (absorbed_at_end terminal_states) ws /\
    parallel ws fs /\
    recorded_terminal terminal_states fs.

(** The walk under construction: all states before the current one are
    not terminal. *)
Definition running (terminal_states : list nat) (nb : notebook) : Prop :=
  exists body, walk nb = body ++ [i nb] /\
               Forall (fun s => in_terminal terminal_states s = false) body.

(** Equal lengths, and the k-th final state is the last element of the
    k-th walk. *)
Definition outputs_agree (all_walks : list (list state))
    (final_states : list state) : Prop :=
  length all_walks = length final_states /\
  forall k w f, nth_error all_walks k = Some w ->
                nth_error final_states k = Some f ->
                w <> [] /\ last w None = f.

(** The proportions were computed and add up to 1. *)
Definition sums_to_one (r : outcome (list float)) : Prop :=
  exists ps t, r = Ok ps /\ sum ps = Fin t /\ (t == 1)%Q.

(** A state that indexes one of [n] rows. *)
Definition valid_state (n : nat) (s : state) : Prop :=
  exists k, s = Some k /\ k < n.

(** Every value the generator returns lies in [0, 1). *)
Definition unit_draws (draws : nat -> float) : Prop :=
  forall k, exists a, draws k = Fin a /\ (0 <= a < 1)%Q.

(** A cumulative row that reaches 1. *)
Definition reaches_one (row : list float) : Prop :=
  exists b, last row zero = Fin b /\ (1 <= b)%Q.

(** [n] cumulative rows of length [n], each reaching 1. *)
Definition chain (n : nat) (PC : ndarray) : Prop :=
  exists m, PC = A2 m /\ length m = n /\
            forall row, In row m -> length row = n /\ reaches_one row.

Definition start_ok (n : nat) (starting_state : starting) : Prop :=
  match starting_state with
  | StartInt s => s < n
  | StartDist p => length p = n /\ reaches_one (cumulative_vector p)
  end.

(** Number of transitions in a list of walks. *)
Definition transitions (ws : list (list state)) : nat :=
  list_sum (map (fun w => length w - 1) ws).

(** Random values read to obtain one starting state. *)
Definition start_draws (starting_state : starting) : nat :=
  match starting_state with
  | StartInt _ => 0
  | StartDist _ => 1
  end.

(** A cumulative value that no draw of [0, 1) can split: the comparison
    [u < c] gives the same answer for every such draw. *)
Definition crisp (c : float) : Prop :=
  match c with
  | Fin b => (b <= 0)%Q \/ (1 <= b)%Q
  | _ => True
  end.

Definition crisp_array (a : ndarray) : Prop :=
  match a with
  | A1 v => Forall crisp v
  | A2 m => Forall (Forall crisp) m
  end.

Definition crisp_start (starting_state : starting) : Prop :=
  match starting_state with
  | StartInt _ => True
  | StartDist p => Forall crisp (cumulative_vector p)
  end.

(** A proportion: a finite value between 0 and 1. *)
Definition proportion (x : float) : Prop :=
  exists t, x = Fin t /\ (0 <= t <= 1)%Q.

(** The current state, the walk in progress and the stored walks hold
    valid states only. *)
Definition safe (n : nat) (nb : notebook) : Prop :=
  valid_state n (i nb) /\ Forall (valid_state n) (walk nb) /\
  Forall (Forall (valid_state n)) (all_walks nb).

(** Transitions made so far: those of the stored walks and those of the
    walk in progress. *)
Definition steps_done (nb : notebook) : nat :=
  transitions (all_walks nb) + (length (walk nb) - 1).

(** A leaving rate whose sign bit is clear: +0.0, a positive value or
    +inf, but not -0.0. *)
Definition unsigned (x : float) : Prop :=
  match x with
  | Fin a => (0 <= a)%Q
  | PInf => True
  | _ => False
  end.

(** * Properties *)

(** ** Facts about float64 values *)

Lemma Qltb_lt (a b : Q) : Qltb a b = true <-> (a < b)%Q.
Proof.
  unfold Qltb. rewrite negb_true_iff. split; intro H.
  - apply Qnot_le_lt. intro Hle. apply Qle_bool_iff in Hle. congruence.
  - destruct (Qle_bool b a) eqn:E; trivial.
    apply Qle_bool_iff in E. exfalso. apply (Qlt_not_le _ _ H E).
Qed.

Lemma ltb_Fin (a b : Q) : ltb (Fin a) (Fin b) = true <-> (a < b)%Q.
Proof. apply Qltb_lt. Qed.

(** ** The state sampler *)

Lemma scan_shift (u : float) (row : list float) (j0 : nat) :
  scan u row (S j0) = option_map S (scan u row j0).
Proof.
  revert j0. induction row as [|c rest IH]; intro j0; simpl.
  - reflexivity.
  - destruct (ltb u c); [reflexivity | apply IH].
Qed.

Lemma generate_state_cons (u c : float) (rest : list float) :
  generate_state u (c :: rest) =
  if ltb u c then Some 0 else option_map S (generate_state u rest).
Proof.
  unfold generate_state. simpl. now rewrite scan_shift.
Qed.

Lemma generate_state_first (u : float) (row : list float) (j : nat) :
  generate_state u row = Some j <-> first_exceeding u row j.
Proof.
  revert j. induction row as [|c rest IH]; intro j.
  - split.
    + discriminate.
    + intros [[x [H _]] _]. destruct j; discriminate.
  - rewrite generate_state_cons. destruct (ltb u c) eqn:E.
    + split.
      * intros [= <-]. split.
        -- exists c. now split.
        -- intros k x Hk. lia.
      * intros [_ Hmin]. destruct j as [|j]; trivial.
        specialize (Hmin 0 c (Nat.lt_0_succ j) eq_refl). congruence.
    + split.
      * destruct (generate_state u rest) as [j'|] eqn:G in |- *;
          [|discriminate].
        intros [= <-]. apply IH in G. destruct G as [[x [Hx Hu]] Hmin].
        split.
        -- exists x. now split.
        -- intros [|k] y Hk Hy; simpl in Hy.
           ++ congruence.
           ++ apply (Hmin k y); [lia | assumption].
      * intros [[x [Hx Hu]] Hmin]. destruct j as [|j]; simpl in Hx.
        -- congruence.
        -- assert (G : generate_state u rest = Some j).
           { apply IH. split.
             - exists x. now split.
             - intros k y Hk Hy. apply (Hmin (S k) y); [lia | assumption]. }
           now rewrite G.
Qed.

Lemma generate_state_none (u : float) (row : list float) :
  generate_state u row = None <-> Forall (fun c => ltb u c = false) row.
Proof.
  induction row as [|c rest IH].
  - split; [constructor | reflexivity].
  - rewrite generate_state_cons. destruct (ltb u c) eqn:E.
    + split; [discriminate | intro H; inversion H; congruence].
    + destruct (generate_state u rest) eqn:G in |- *; simpl.
      * split; [discriminate |].
        intro H. inversion H; subst. apply IH in H3. congruence.
      * split; [| reflexivity]. intros _. constructor; [assumption|].
        now apply IH.
Qed.

Lemma generate_state_some (u : float) (row : list float) :
  (exists c, In c row /\ ltb u c = true) ->
  exists j, generate_state u row = Some j.
Proof.
  intros [c [Hin Hc]].
  destruct (generate_state u row) as [j|] eqn:G; [now exists j|].
  apply generate_state_none in G. rewrite Forall_forall in G.
  rewrite (G c Hin) in Hc. discriminate.
Qed.

(** C1.  For every row and every draw [u], [generate_state] returns [j]
    exactly when [j] is the smallest index whose cumulative value is
    strictly greater than [u]; that index is unique, so the result is
    determined by [u]; an index is returned whenever some cumulative value
    exceeds [u], in particular for [u] in [0, 1) on a row that ends at 1 or
    above; and the draw 0 returns index 0 when the first cumulative value
    is positive. *)
Theorem generate_state_smallest_index (PC_row : list float) (u : float) :
  (forall j, generate_state u PC_row = Some j <-> first_exceeding u PC_row j) /\
  (forall j j', first_exceeding u PC_row j -> first_exceeding u PC_row j' ->
                j = j') /\
  ((exists c, In c PC_row /\ ltb u c = true) ->
   exists j, generate_state u PC_row = Some j /\ first_exceeding u PC_row j) /\
  (forall a b, u = Fin a -> (0 <= a < 1)%Q ->
               last PC_row zero = Fin b -> (1 <= b)%Q ->
               exists j, generate_state u PC_row = Some j /\
                         first_exceeding u PC_row j) /\
  (forall c rest, PC_row = c :: rest -> ltb zero c = true ->
                  generate_state zero PC_row = Some 0).
Proof.
  split; [apply generate_state_first|].
  split.
  { intros j j' Hj Hj'. apply generate_state_first in Hj, Hj'. congruence. }
  split.
  { intro H. destruct (generate_state_some u PC_row H) as [j Hj].
    exists j. split; [assumption | now apply generate_state_first]. }
  split.
  { intros a b -> [_ Ha] Hlast Hb.
    destruct PC_row as [|c rest].
    - simpl in Hlast. injection Hlast as <-. exfalso.
      apply (Qlt_not_le 0 1); [reflexivity | assumption].
    - destruct (generate_state_some (Fin a) (c :: rest)) as [j Hj].
      + exists (Fin b). split.
        * rewrite <- Hlast.
          destruct (exists_last (l := c :: rest)) as [body [x ->]];
            [discriminate|].
          rewrite last_last. apply in_or_app. right. now left.
        * apply ltb_Fin. eapply Qlt_le_trans; eassumption.
      + exists j. split; [assumption | now apply generate_state_first]. }
  intros c rest -> Hc. rewrite generate_state_cons. now rewrite Hc.
Qed.

(** The theorem at the row [0.25, 0.75, 1], for the draws 0.5 and 0. *)
Lemma generate_state_smallest_index_witness :
  (exists j,
     generate_state (Fin (1 # 2)) [Fin (1 # 4); Fin (3 # 4); Fin 1] = Some j /\
     first_exceeding (Fin (1 # 2)) [Fin (1 # 4); Fin (3 # 4); Fin 1] j) /\
  generate_state zero [Fin (1 # 4); Fin (3 # 4); Fin 1] = Some 0.
Proof.
  split.
  - apply (proj1 (proj2 (proj2 (proj2
             (generate_state_smallest_index
                [Fin (1 # 4); Fin (3 # 4); Fin 1] (Fin (1 # 2))))))
             (1 # 2)%Q 1%Q eq_refl).
    + split; [discriminate | reflexivity].
    + reflexivity.
    + discriminate.
  - apply (proj2 (proj2 (proj2 (proj2
             (generate_state_smallest_index
                [Fin (1 # 4); Fin (3 # 4); Fin 1] zero))))
             (Fin (1 # 4)) [Fin (3 # 4); Fin 1] eq_refl).
    reflexivity.
Defined.

(** C5.  A row whose last cumulative value is not above the draw makes
    [generate_state] fall off its loop and return None, not the last
    index.  The matrix below passes the row-sum assertion (its first row
    sums to 0.999995); with the draw 0.999999 the sampler returns None on
    the first row, and the simulation cell stops with a ValueError at the
    next step, when it indexes [PC] with None. *)
Theorem generate_state_falls_through :
  let p := A2 [[Fin (1 # 2); Fin (499995 # 1000000)]; [Fin 1; Fin 0]] in
  let u := Fin (999999 # 1000000) in
  row_sums_ok p = true /\
  generate_state u [Fin (1 # 2); Fin (999995 # 1000000)] = None /\
  walk (fst (simulation_cell p (StartInt 0) [1] 1 (fun _ => u))) =
    [Some 0; None] /\
  snd (simulation_cell p (StartInt 0) [1] 2 (fun _ => u)) = Raised ValueError.
Proof.
  cbv zeta. split; [vm_compute; reflexivity|].
  split; [vm_compute; reflexivity|].
  split; vm_compute; reflexivity.
Qed.

(** ** The cumulative matrix *)

Lemma sum_snoc (v : list float) (x : float) : sum (v ++ [x]) = add (sum v) x.
Proof. unfold sum. now rewrite fold_left_app. Qed.

Lemma sum_nonneg (v : list float) :
  Forall nonneg v -> exists a, sum v = Fin a /\ (0 <= a)%Q.
Proof.
  induction v as [|x v IH] using rev_ind; intro H.
  - exists 0%Q. split; [reflexivity | apply Qle_refl].
  - rewrite sum_snoc. apply Forall_app in H. destruct H as [Hv Hx].
    inversion Hx as [|? ? Hx' _]; subst.
    destruct (IH Hv) as [a [-> Ha]].
    destruct x as [b| | | |]; simpl in *; try contradiction.
    + exists (a + b)%Q. split; [reflexivity | lra].
    + now exists a.
Qed.

Lemma Forall_prefix (A : Type) (R : A -> Prop) (v : list A) (k : nat) :
  Forall R v -> Forall R (firstn k v).
Proof.
  revert k. induction v as [|x v IH]; intros [|k] H; simpl; trivial.
  inversion H; subst. constructor; [assumption | now apply IH].
Qed.

Lemma firstn_succ_snoc (v : list float) (k : nat) (x : float) :
  nth_error v k = Some x -> firstn (S k) v = firstn k v ++ [x].
Proof.
  revert k. induction v as [|y v IH]; intros [|k] H; simpl in *;
    try discriminate.
  - now injection H as ->.
  - f_equal. now apply IH.
Qed.

Lemma cumulative_vector_length (v : list float) :
  length (cumulative_vector v) = length v.
Proof. unfold cumulative_vector. now rewrite length_map, length_seq. Qed.

Lemma cumulative_vector_nth (v : list float) (j : nat) :
  j < length v ->
  nth_error (cumulative_vector v) j = Some (sum (firstn (S j) v)).
Proof.
  intro Hj. unfold cumulative_vector.
  rewrite nth_error_map, nth_error_seq.
  destruct (Nat.ltb_spec j (length v)); [reflexivity | lia].
Qed.

Lemma cumulative_vector_last (v : list float) :
  v <> [] -> last (cumulative_vector v) zero = sum v.
Proof.
  intro Hv. unfold cumulative_vector.
  destruct (length v) as [|n] eqn:Hn.
  - destruct v; [congruence | discriminate].
  - rewrite seq_S, map_app. cbn [map]. rewrite last_last.
    change (1 + n) with (S n). rewrite <- Hn. now rewrite firstn_all.
Qed.

Lemma cumulative_vector_nondecreasing (v : list float) :
  Forall nonneg v -> nondecreasing (cumulative_vector v).
Proof.
  intros Hv j x y Hx Hy.
  assert (Hj : S j < length v).
  { rewrite <- cumulative_vector_length. apply nth_error_Some. congruence. }
  rewrite cumulative_vector_nth in Hx, Hy by lia.
  assert (Ex : x = sum (firstn (S j) v)) by congruence.
  assert (Ey : y = sum (firstn (S (S j)) v)) by congruence.
  subst x y. clear Hx Hy.
  destruct (nth_error v (S j)) as [z|] eqn:Hz;
    [| apply nth_error_None in Hz; lia].
  rewrite (firstn_succ_snoc v (S j) Hz), sum_snoc.
  destruct (@sum_nonneg (firstn (S j) v)) as [a [-> Ha]];
    [now apply Forall_prefix|].
  assert (Hz' : nonneg z).
  { rewrite Forall_forall in Hv. apply Hv. eapply nth_error_In; eassumption. }
  destruct z as [b| | | |]; simpl in *; try contradiction; lra.
Qed.

(** With at least one column, building the columns and transposing
    gives, row by row, the cumulative vector of each row. *)
Lemma cumulative_matrix_rows (m : list (list float)) :
  rectangular m -> 0 < length (hd [] m) ->
  cumulative_matrix (A2 m) = A2 (map cumulative_vector m).
Proof.
  intros Hrect Hc. unfold cumulative_matrix.
  destruct (length (hd [] m)) as [|c] eqn:Hlen; [lia|].
  cbn [seq map np_array np_transpose]. f_equal.
  unfold transpose. cbn [hd]. rewrite length_map.
  apply nth_ext with (d := []) (d' := cumulative_vector []).
  - now rewrite !length_map, length_seq.
  - intros n Hn. rewrite length_map, length_seq in Hn.
    rewrite map_nth with (f := cumulative_vector).
    match goal with |- nth n (map ?G _) _ = _ => set (F := G) end.
    rewrite nth_indep with (d' := F 0) by now rewrite length_map, length_seq.
    rewrite map_nth with (f := F). rewrite seq_nth by assumption.
    subst F. cbn beta. cbn [Nat.add].
    assert (Hrow : length (nth n m []) = S c).
    { rewrite <- Hlen. apply Hrect. now apply nth_In. }
    unfold cumulative_vector. rewrite Hrow.
    change (map (fun row => sum (firstn 1 row)) m ::
            map (fun i0 => map (fun row => sum (firstn i0 row)) m) (seq 2 c))
      with (map (fun i0 => map (fun row => sum (firstn i0 row)) m)
                (seq 1 (S c))).
    rewrite map_map. apply map_ext. intro k.
    set (G := fun row : list float => sum (firstn k row)).
    rewrite nth_indep with (d' := G []) by now rewrite length_map.
    now rewrite map_nth with (f := G).
Qed.

(** C4.  For every matrix that is square (a transition matrix) or whose
    rows sum to 1 within the tolerance (the matrices of the docstring),
    [cumulative_matrix] keeps the shape and its entry (s, j) is the sum of
    row s over the columns 0..j, so that the last entry of each row is the
    sum of the whole row.  When the weights of a row are non-negative the
    row of the result is non-decreasing, and a row that sums to 1 within
    the tolerance gives a last entry within that tolerance of 1. *)
Theorem cumulative_matrix_prefix_sums (m : list (list float)) :
  rectangular m ->
  (length (hd [] m) = length m \/
   forall row, In row m -> row_sum_ok row = true) ->
  shape (cumulative_matrix (np_array m)) = shape (np_array m) /\
  (forall s j row, nth_error m s = Some row -> j < length row ->
     entry (cumulative_matrix (np_array m)) s j =
     Some (sum (firstn (S j) row))) /\
  (forall s row, nth_error m s = Some row ->
     exists crow,
       nth_error (rows (cumulative_matrix (np_array m))) s = Some crow /\
       last crow zero = sum row /\
       (Forall nonneg row -> nondecreasing crow) /\
       (row_sum_ok row = true -> near_one (last crow zero))).
Proof.
  intros Hrect Hdom. destruct m as [|r0 rest].
  { split; [reflexivity|]. split.
    - intros [|s] j row Hs; discriminate Hs.
    - intros [|s] row Hs; discriminate Hs. }
  assert (Hc : 0 < length (hd [] (r0 :: rest))).
  { destruct Hdom as [Hsq | Hone]; [simpl in *; lia|].
    specialize (Hone r0 (or_introl eq_refl)).
    destruct r0; [vm_compute in Hone; discriminate Hone | simpl; lia]. }
  change (np_array (r0 :: rest)) with (A2 (r0 :: rest)).
  remember (r0 :: rest) as m eqn:Hm. clear Hm Hdom.
  rewrite (cumulative_matrix_rows Hrect Hc).
  split; [|split].
  - simpl. rewrite length_map. f_equal. f_equal.
    destruct m as [|r m']; simpl; [reflexivity|].
    apply cumulative_vector_length.
  - intros s j row Hs Hj. simpl. rewrite nth_error_map, Hs. simpl.
    now apply cumulative_vector_nth.
  - intros s row Hs. exists (cumulative_vector row). simpl.
    rewrite nth_error_map, Hs. simpl.
    assert (Hne : row <> []).
    { intros ->. assert (H0 : length (@nil float) = length (hd [] m)).
      { apply Hrect. eapply nth_error_In; eassumption. }
      simpl in H0. lia. }
    split; [reflexivity|]. split; [now apply cumulative_vector_last|].
    split; [apply cumulative_vector_nondecreasing|].
    intro Hok. unfold near_one. rewrite cumulative_vector_last by assumption.
    exact Hok.
Qed.

(** The theorem at a 2 x 2 matrix of probabilities. *)
Lemma cumulative_matrix_prefix_sums_witness :
  let m := [[Fin (1 # 4); Fin (3 # 4)]; [Fin 1; Fin 0]] in
  shape (cumulative_matrix (np_array m)) = [2; 2] /\
  entry (cumulative_matrix (np_array m)) 0 1 =
    Some (sum (firstn 2 [Fin (1 # 4); Fin (3 # 4)])).
Proof.
  cbv zeta.
  assert (Hrect : rectangular [[Fin (1 # 4); Fin (3 # 4)]; [Fin 1; Fin 0]]).
  { intros row [<- | [<- | []]]; reflexivity. }
  destruct (@cumulative_matrix_prefix_sums
              [[Fin (1 # 4); Fin (3 # 4)]; [Fin 1; Fin 0]] Hrect
              (or_introl eq_refl)) as (Hshape & Hentry & _).
  split.
  - exact Hshape.
  - apply (Hentry 0 1 [Fin (1 # 4); Fin (3 # 4)] eq_refl). simpl. lia.
Defined.

(** ** Row normalization and the row-sum assertion *)

Lemma add_finite (x y : float) :
  is_finite (add x y) = true -> is_finite x = true /\ is_finite y = true.
Proof. destruct x, y; simpl; intro H; try discriminate; now split. Qed.

Lemma add_not_finite_r (x y : float) :
  is_finite y = false -> is_finite (add x y) = false.
Proof. destruct x, y; simpl; intro H; try discriminate; reflexivity. Qed.

Lemma sum_finite_entries (v : list float) :
  is_finite (sum v) = true -> Forall (fun x => is_finite x = true) v.
Proof.
  induction v as [|x v IH] using rev_ind; intro H.
  - constructor.
  - rewrite sum_snoc in H. apply add_finite in H. destruct H as [Hv Hx].
    apply Forall_app. split; [now apply IH | now constructor].
Qed.

Lemma sum_not_finite (v : list float) :
  v <> [] -> Forall (fun x => is_finite x = false) v ->
  is_finite (sum v) = false.
Proof.
  destruct v as [|x v] using rev_ind; intros Hne H; [congruence|].
  rewrite sum_snoc. apply add_not_finite_r.
  apply Forall_app in H. destruct H as [_ H]. now inversion H.
Qed.

Lemma near_one_finite (x : float) : near_one x -> is_finite x = true.
Proof. destruct x; unfold near_one; simpl; intro H; congruence. Qed.

Lemma signed_inf_not_finite (a : Q) :
  is_finite (signed_inf a PInf) = false.
Proof.
  unfold signed_inf. destruct (Qeq_bool a 0); [reflexivity|].
  destruct (Qltb 0 a); reflexivity.
Qed.

(** Dividing a row by a zero sum leaves no finite entry. *)
Lemma normalize_row_zero_sum (row : list float) (z : Q) :
  sum row = Fin z -> (z == 0)%Q ->
  Forall (fun x => is_finite x = false) (normalize_row row).
Proof.
  intros Hs Hz. unfold normalize_row. rewrite Hs.
  assert (Hfin : Forall (fun x => is_finite x = true) row).
  { apply sum_finite_entries. now rewrite Hs. }
  apply Forall_map. eapply Forall_impl; [|exact Hfin].
  apply Qeq_bool_iff in Hz.
  intros [a| | | |] Ha; simpl in *; try discriminate; rewrite Hz;
    [apply signed_inf_not_finite | reflexivity].
Qed.

Lemma row_sum_ok_zero_sum (row : list float) (z : Q) :
  sum row = Fin z -> (z == 0)%Q -> row_sum_ok (normalize_row row) = false.
Proof.
  intros Hs Hz. destruct row as [|x row].
  - vm_compute. reflexivity.
  - assert (H : is_finite (sum (normalize_row (x :: row))) = false).
    { apply sum_not_finite; [discriminate|].
      eapply normalize_row_zero_sum; eassumption. }
    unfold row_sum_ok.
    destruct (sum (normalize_row (x :: row))); simpl in *;
      try discriminate; reflexivity.
Qed.

Lemma simulation_cell_assert (p : ndarray) (starting_state : starting)
    (terminal_states : list nat) (steps : nat) (draws : nat -> float) :
  row_sums_ok p = false ->
  simulation_cell p starting_state terminal_states steps draws =
  (not_started, Raised (AssertionError assert_message)).
Proof. intro H. unfold simulation_cell. now rewrite H. Qed.

(** C3.  On every weight matrix, either the assertion holds, and then
    every row of the normalized matrix sums to 1 within the tolerance and
    has only finite entries (no NaN enters the simulation); or the run
    stops at the assertion, with no list created and no random number
    drawn.  A row whose weights sum to zero always gives the second
    case. *)
Theorem zero_row_sum_aborts (weights : list (list float))
    (starting_state : starting) (terminal_states : list nat) (steps : nat)
    (draws : nat -> float) :
  let p := P (setup_cell weights) in
  let run := run_notebook weights starting_state terminal_states steps draws in
  ((row_sums_ok p = true /\
    (forall row, In row (rows p) -> near_one (sum row)) /\
    (forall row x, In row (rows p) -> In x row -> is_finite x = true)) \/
   (row_sums_ok p = false /\
    run = (not_started, Raised (AssertionError assert_message)) /\
    all_walks (fst run) = [] /\ rand_calls (fst run) = 0)) /\
  ((exists row z, In row weights /\ sum row = Fin z /\ (z == 0)%Q) ->
   run = (not_started, Raised (AssertionError assert_message))).
Proof.
  cbv zeta. split.
  - destruct (row_sums_ok (P (setup_cell weights))) eqn:Hok.
    + left. split; [reflexivity|].
      assert (Hnear : forall row, In row (rows (P (setup_cell weights))) ->
                                  near_one (sum row)).
      { intros row Hin. unfold setup_cell in *.
        destruct (np_array weights) as [v|m]; simpl in *; [contradiction|].
        rewrite forallb_forall in Hok. now apply Hok. }
      split; [exact Hnear|].
      intros row x Hrow Hx.
      pose proof (sum_finite_entries row (near_one_finite (Hnear row Hrow)))
        as Hfin.
      rewrite Forall_forall in Hfin. now apply Hfin.
    + right. split; [reflexivity|]. unfold run_notebook.
      rewrite (simulation_cell_assert _ _ _ _ _ Hok). now repeat split.
  - intros (row & z & Hin & Hs & Hz). unfold run_notebook.
    apply simulation_cell_assert. unfold setup_cell.
    destruct weights as [|r0 rest]; [contradiction|].
    cbn [np_array P row_sums_ok].
    destruct (forallb row_sum_ok (map normalize_row (r0 :: rest))) eqn:Hall;
      [|reflexivity].
    rewrite forallb_forall in Hall.
    specialize (Hall (normalize_row row) (in_map normalize_row _ _ Hin)).
    rewrite (row_sum_ok_zero_sum row Hs Hz) in Hall. discriminate Hall.
Qed.

(** The theorem at a matrix whose second row is all zero. *)
Lemma zero_row_sum_aborts_witness :
  run_notebook [[Fin 0; Fin 1]; [Fin 0; Fin 0]] (StartInt 0) [1] 5
               (fun _ => Fin (1 # 2)) =
  (not_started, Raised (AssertionError assert_message)).
Proof.
  apply (proj2 (zero_row_sum_aborts [[Fin 0; Fin 1]; [Fin 0; Fin 0]]
                  (StartInt 0) [1] 5 (fun _ => Fin (1 # 2)))).
  exists [Fin 0; Fin 0], (0 + 0 + 0)%Q.
  split; [right; left; reflexivity|]. split; reflexivity.
Defined.

(** ** The step loop *)

Lemma parallel_snoc (ws : list (list state)) (fs : list state)
    (w : list state) (f : state) :
  parallel ws fs -> parallel (ws ++ [w ++ [f]]) (fs ++ [f]).
Proof.
  intro H. apply Forall2_app; [exact H|].
  constructor; [now exists w | constructor].
Qed.

Lemma nth_error_snoc (A : Type) (l : list A) (x y : A) (k : nat) :
  nth_error (l ++ [x]) k = Some y ->
  (k < length l /\ nth_error l k = Some y) \/ (k = length l /\ y = x).
Proof.
  intro H. destruct (Nat.lt_ge_cases k (length l)) as [Hlt | Hge].
  - left. split; [assumption|]. now rewrite nth_error_app1 in H.
  - right. rewrite nth_error_app2 in H by assumption.
    destruct (k - length l) as [|d] eqn:Hd; simpl in H.
    + split; [lia | congruence].
    + destruct d; discriminate.
Qed.

Lemma simulation_step_inv (PC : ndarray) (starting_state : starting)
    (terminal_states : list nat) (draws : nat -> float) (nb : notebook) :
  step_inv terminal_states nb ->
  step_inv terminal_states
    (fst (simulation_step PC starting_state terminal_states draws nb)).
Proof.
  intros (Hall & [body Hwalk] & Hrun & Hpar & Hrec).
  unfold simulation_step.
  destruct (getitem PC (i nb)) as [PC_row|e]; simpl.
  2: { repeat split; eauto. }
  destruct (generate_state_on (draws (rand_calls nb)) PC_row) as [i'|e]; simpl.
  2: { repeat split; eauto. }
  destruct (in_terminal terminal_states i') eqn:Hterm.
  - destruct (first_state starting_state draws (S (rand_calls nb)))
      as [i0 k'] eqn:Hfirst. simpl.
    split; [|split; [|split; [|split]]].
    + apply Forall_app. split; [exact Hall|]. constructor; [|constructor].
      split; [split|].
      * exists (walk nb), i'. now split.
      * intros k s Hk Hlen Hnth. rewrite length_app in Hlen. simpl in Hlen.
        apply (Hrun k s Hk). rewrite nth_error_app1 in Hnth by lia.
        exact Hnth.
      * rewrite Hwalk, !length_app. simpl. lia.
    + now exists [].
    + intros [|[|k]] s Hk Hnth; simpl in Hnth; try discriminate. lia.
    + now apply parallel_snoc.
    + apply Forall_app. split; [exact Hrec|]. now constructor.
  - simpl. split; [|split; [|split; [|split]]]; trivial.
    + now exists (walk nb).
    + intros k s Hk Hnth. apply nth_error_snoc in Hnth.
      destruct Hnth as [[_ Hnth] | [_ ->]]; [eauto | exact Hterm].
Qed.

Lemma simulation_loop_inv (PC : ndarray) (starting_state : starting)
    (terminal_states : list nat) (draws : nat -> float) (steps : nat)
    (nb : notebook) :
  step_inv terminal_states nb ->
  step_inv terminal_states
    (fst (simulation_loop PC starting_state terminal_states draws steps nb)).
Proof.
  revert nb. induction steps as [|n IH]; intros nb Hinv; simpl.
  - exact Hinv.
  - pose proof (simulation_step_inv PC starting_state draws Hinv) as Hstep.
    destruct (simulation_step PC starting_state terminal_states draws nb)
      as [nb' [e|]]; simpl in *.
    + exact Hstep.
    + now apply IH.
Qed.

Lemma first_walk_inv (terminal_states : list nat) (i0 : state) (k : nat) :
  step_inv terminal_states
    {| i := i0; walk := [i0]; all_walks := []; final_states := [];
       rand_calls := k |}.
Proof.
  split; [constructor|]. split; [now exists []|].
  split; [|split; constructor].
  intros [|[|n]] s Hn Hnth; simpl in Hnth; try discriminate. lia.
Qed.

(** A walk still in progress is not among the stored ones. *)
Lemma step_inv_in_progress (terminal_states : list nat) (nb : notebook) :
  step_inv terminal_states nb -> ~ In (walk nb) (all_walks nb).
Proof.
  intros (Hall & _ & Hrun & _) Hin. rewrite Forall_forall in Hall.
  destruct (Hall _ Hin) as [[[body [f [Hw Hf]]] _] Hlen].
  assert (Hnth : nth_error (walk nb) (length body) = Some f).
  { rewrite Hw, nth_error_app2, Nat.sub_diag by lia. reflexivity. }
  rewrite Hw, length_app in Hlen. simpl in Hlen.
  rewrite (Hrun (length body) f) in Hf; [discriminate | lia | exact Hnth].
Qed.

Lemma simulation_cell_inv (p : ndarray) (starting_state : starting)
    (terminal_states : list nat) (steps : nat) (draws : nat -> float) :
  let nb := fst (simulation_cell p starting_state terminal_states steps draws) in
  nb = not_started \/ step_inv terminal_states nb.
Proof.
  cbv zeta. unfold simulation_cell.
  destruct (negb (row_sums_ok p)); [now left|]. right.
  destruct (first_state starting_state draws 0) as [i0 k].
  apply simulation_loop_inv, first_walk_inv.
Qed.

(** ** The walk loop *)

Section WalkLoop.

Variable PC : ndarray.
Variable starting_state : starting.
Variable terminal_states : list nat.
Variable draws : nat -> float.

Lemma while_loop_spec (fuel : nat) (nb : notebook) :
  running terminal_states nb ->
  let r := while_loop PC terminal_states draws fuel nb in
  all_walks (fst r) = all_walks nb /\
  final_states (fst r) = final_states nb /\
  running terminal_states (fst r) /\
  (snd r = Completed -> in_terminal terminal_states (i (fst r)) = true).
Proof.
  revert nb. induction fuel as [|fuel IH]; intros nb Hrun; cbv zeta.
  - simpl. destruct (in_terminal terminal_states (i nb)) eqn:Hterm; simpl;
      repeat split; trivial; discriminate.
  - simpl. destruct (in_terminal terminal_states (i nb)) eqn:Hterm; simpl.
    { repeat split; trivial. }
    destruct (getitem PC (i nb)) as [PC_row|e]; simpl.
    2: { repeat split; trivial; discriminate. }
    destruct (generate_state_on (draws (rand_calls nb)) PC_row) as [i'|e];
      simpl.
    2: { repeat split; trivial; discriminate. }
    match goal with |- context [while_loop _ _ _ fuel ?nb'] =>
      specialize (IH nb') end.
    apply IH. destruct Hrun as [body [Hw Hbody]]. exists (walk nb). simpl.
    split; [reflexivity|]. rewrite Hw. apply Forall_app. split; trivial.
    now constructor.
Qed.

Lemma running_absorbed (nb : notebook) :
  running terminal_states nb ->
  in_terminal terminal_states (i nb) = true ->
  absorbed_at_end terminal_states (walk nb).
Proof.
  intros [body [Hw Hbody]] Hterm. exists body, (i nb). now repeat split.
Qed.

Lemma extends_refl (nb nb' : notebook) :
  all_walks nb' = all_walks nb -> final_states nb' = final_states nb ->
  extends terminal_states nb nb'.
Proof.
  intros Hw Hf. exists [], []. rewrite !app_nil_r.
  repeat split; trivial; constructor.
Qed.

Lemma extends_trans (nb1 nb2 nb3 : notebook) :
  extends terminal_states nb1 nb2 -> extends terminal_states nb2 nb3 ->
  extends terminal_states nb1 nb3.
Proof.
  intros (ws & fs & Hw & Hf & Ha & Hp & Hr) (ws' & fs' & Hw' & Hf' & Ha' & Hp' & Hr').
  exists (ws ++ ws'), (fs ++ fs'). rewrite Hw', Hf', Hw, Hf, !app_assoc.
  repeat split; trivial.
  - now apply Forall_app.
  - now apply Forall2_app.
  - now apply Forall_app.
Qed.

Lemma walk_iteration_extends (fuel : nat) (nb : notebook) :
  extends terminal_states nb
    (fst (walk_iteration PC starting_state terminal_states draws fuel nb)).
Proof.
  unfold walk_iteration.
  destruct (first_state starting_state draws (rand_calls nb)) as [i0 k].
  match goal with |- context [while_loop _ _ _ fuel ?nb0] =>
    pose proof (while_loop_spec fuel (nb := nb0)) as Hspec end.
  cbv zeta in Hspec. simpl in Hspec.
  destruct Hspec as (Hw & Hf & Hrun & Hdone).
  { exists []. split; [reflexivity | constructor]. }
  destruct (while_loop PC terminal_states draws fuel _) as [nb' st].
  simpl in *. destruct st; simpl.
  - specialize (Hdone eq_refl).
    exists [walk nb'], [i nb']. simpl. rewrite Hw, Hf.
    split; [reflexivity|]. split; [reflexivity|].
    split; [|split].
    + constructor; [now apply running_absorbed | constructor].
    + destruct Hrun as [body [Hwalk _]].
      constructor; [now exists body | constructor].
    + constructor; [exact Hdone | constructor].
  - now apply extends_refl.
  - now apply extends_refl.
Qed.

Lemma walk_budgeted_loop_extends (fuel total_iterations : nat)
    (nb : notebook) :
  extends terminal_states nb
    (fst (walk_budgeted_loop PC starting_state terminal_states draws fuel
            total_iterations nb)).
Proof.
  revert nb. induction total_iterations as [|n IH]; intro nb; simpl.
  - now apply extends_refl.
  - pose proof (walk_iteration_extends fuel nb) as Hit.
    destruct (walk_iteration PC starting_state terminal_states draws fuel nb)
      as [nb' st]. simpl in Hit.
    destruct st; simpl; [| exact Hit | exact Hit].
    eapply extends_trans; [exact Hit | apply IH].
Qed.

(** A loop that runs to completion stores one walk per iteration. *)
Lemma walk_budgeted_loop_count (fuel total_iterations : nat) (nb : notebook) :
  let r := walk_budgeted_loop PC starting_state terminal_states draws fuel
             total_iterations nb in
  snd r = Completed ->
  length (all_walks (fst r)) = length (all_walks nb) + total_iterations.
Proof.
  cbv zeta. revert nb.
  induction total_iterations as [|n IH]; intro nb; simpl; [lia|].
  unfold walk_iteration.
  destruct (first_state starting_state draws (rand_calls nb)) as [i0 k].
  match goal with |- context [while_loop _ _ _ fuel ?nb0] =>
    pose proof (while_loop_spec fuel (nb := nb0)) as Hspec end.
  cbv zeta in Hspec. simpl in Hspec.
  destruct Hspec as (Hw & _).
  { exists []. split; [reflexivity | constructor]. }
  destruct (while_loop PC terminal_states draws fuel _) as [nb' st].
  simpl in Hw. destruct st; simpl; try discriminate.
  intro Hdone. rewrite (IH _ Hdone). simpl.
  rewrite Hw, length_app. simpl. lia.
Qed.

End WalkLoop.

Lemma absorbed_completed (terminal_states : list nat) (w : list state) :
  absorbed_at_end terminal_states w -> completed_walk terminal_states w.
Proof.
  intros [body [f [-> [Hf Hbody]]]]. split.
  - now exists body, f.
  - intros k s _ Hlen Hnth. rewrite length_app in Hlen. simpl in Hlen.
    rewrite nth_error_app1 in Hnth by lia.
    rewrite Forall_forall in Hbody. apply Hbody.
    eapply nth_error_In; eassumption.
Qed.

(** Two walks of the chain that alternates between its two states,
    started in state 1 with terminal state 0: five rounds of fuel are
    enough for both, and each walk is 1, 0. *)
Example walk_budgeted_loop_two_walks :
  let r := walk_budgeted_loop (A2 [[Fin 0; Fin 1]; [Fin 1; Fin 1]])
             (StartInt 1) [0] (fun _ => Fin (1 # 2)) 5 2 not_started in
  snd r = Completed /\
  all_walks (fst r) = [[Some 1; Some 0]; [Some 1; Some 0]] /\
  final_states (fst r) = [Some 0; Some 0].
Proof. vm_compute. repeat split. Qed.

(** ** Stored walks *)

(** C2.  In the step loop every stored walk ends with a terminal state
    and has no terminal state strictly between its first and last
    positions, and the walk in progress when the steps run out is not in
    the collection.  The walk loop adds only walks whose last state is
    terminal and is their only terminal state, so it keeps both
    properties of the collection it starts from. *)
Theorem stored_walks_completed (terminal_states : list nat) :
  (forall p starting_state steps draws,
     let nb :=
       fst (simulation_cell p starting_state terminal_states steps draws) in
     Forall (completed_walk terminal_states) (all_walks nb) /\
     ~ In (walk nb) (all_walks nb)) /\
  (forall PC starting_state draws fuel total_iterations nb,
     let nb' :=
       fst (walk_budgeted_loop PC starting_state terminal_states draws fuel
              total_iterations nb) in
     (Forall (completed_walk terminal_states) (all_walks nb) ->
      Forall (completed_walk terminal_states) (all_walks nb')) /\
     (Forall (absorbed_at_end terminal_states) (all_walks nb) ->
      Forall (absorbed_at_end terminal_states) (all_walks nb'))).
Proof.
  split.
  - intros p starting_state steps draws.
    destruct (simulation_cell_inv p starting_state terminal_states steps draws)
      as [Hnot | Hinv]; cbv zeta.
    + rewrite Hnot. simpl. split; [constructor | tauto].
    + split; [| exact (step_inv_in_progress Hinv)].
      destruct Hinv as [Hall _]. eapply Forall_impl; [|exact Hall].
      now intros w [Hw _].
  - intros PC starting_state draws fuel n nb. cbv zeta.
    destruct (walk_budgeted_loop_extends PC starting_state terminal_states
                draws fuel n nb) as (ws & fs & Hw & _ & Ha & _).
    rewrite Hw. split; intro H; apply Forall_app; split; trivial.
    eapply Forall_impl; [|exact Ha].
    intros w Habs. now apply absorbed_completed.
Qed.

(** The theorem at two walks of the chain that alternates between its
    two states, started in state 1 with terminal state 0. *)
Lemma stored_walks_completed_witness :
  Forall (completed_walk [0])
    (all_walks
       (fst (walk_budgeted_loop (A2 [[Fin 0; Fin 1]; [Fin 1; Fin 1]])
               (StartInt 1) [0] (fun _ => Fin (1 # 2)) 5 2 not_started))).
Proof.
  apply (proj1 (proj2 (stored_walks_completed [0])
                  (A2 [[Fin 0; Fin 1]; [Fin 1; Fin 1]]) (StartInt 1)
                  (fun _ => Fin (1 # 2)) 5 2 not_started)).
  simpl. constructor.
Defined.

Lemma parallel_agree (ws : list (list state)) (fs : list state) :
  parallel ws fs <-> outputs_agree ws fs.
Proof.
  split.
  - intro H. induction H as [|w f ws fs [body ->] _ [Hlen Hnth]].
    + split; [reflexivity|]. intros [|k]; discriminate.
    + split; [simpl; now rewrite Hlen|].
      intros [|k] w f' Hw Hf; simpl in *.
      * injection Hw as <-. injection Hf as <-.
        split; [now destruct body | apply last_last].
      * eauto.
  - revert fs. induction ws as [|w ws IH]; intros [|f fs] [Hlen Hnth];
      try discriminate; constructor.
    + destruct (Hnth 0 w f eq_refl eq_refl) as [Hne Hlast].
      destruct (exists_last Hne) as [body [x ->]].
      rewrite last_last in Hlast. subst x. now exists body.
    + apply IH. split; [simpl in Hlen; lia|].
      intros k w' f' Hw Hf. now apply (Hnth (S k)).
Qed.

(** C10.  After any number of rounds of either loop the list of final
    states and the list of stored walks have the same length, and the
    k-th final state is the last element of the k-th walk; the walk loop
    keeps this for the lists it starts from. *)
Theorem outputs_stay_parallel (terminal_states : list nat) :
  (forall p starting_state steps draws,
     let nb :=
       fst (simulation_cell p starting_state terminal_states steps draws) in
     outputs_agree (all_walks nb) (final_states nb)) /\
  (forall PC starting_state draws fuel total_iterations nb,
     let nb' :=
       fst (walk_budgeted_loop PC starting_state terminal_states draws fuel
              total_iterations nb) in
     outputs_agree (all_walks nb) (final_states nb) ->
     outputs_agree (all_walks nb') (final_states nb')).
Proof.
  split.
  - intros p starting_state steps draws.
    destruct (simulation_cell_inv p starting_state terminal_states steps draws)
      as [Hnot | Hinv]; cbv zeta; apply parallel_agree.
    + rewrite Hnot. constructor.
    + now destruct Hinv as (_ & _ & _ & Hpar & _).
  - intros PC starting_state draws fuel n nb. cbv zeta. intro H.
    apply parallel_agree in H. apply parallel_agree.
    destruct (walk_budgeted_loop_extends PC starting_state terminal_states
                draws fuel n nb) as (ws & fs & Hw & Hf & _ & Hp & _).
    rewrite Hw, Hf. now apply Forall2_app.
Qed.

(** The theorem at two walks added to the lists left by an earlier run. *)
Lemma outputs_stay_parallel_witness :
  let nb0 := {| i := Some 1; walk := [Some 1];
                all_walks := [[Some 1; Some 0]]; final_states := [Some 0];
                rand_calls := 3 |} in
  let nb' := fst (walk_budgeted_loop (A2 [[Fin 0; Fin 1]; [Fin 1; Fin 1]])
                    (StartInt 1) [0] (fun _ => Fin (1 # 2)) 5 2 nb0) in
  outputs_agree (all_walks nb') (final_states nb').
Proof.
  cbv zeta.
  apply (proj2 (outputs_stay_parallel [0])
           (A2 [[Fin 0; Fin 1]; [Fin 1; Fin 1]]) (StartInt 1)
           (fun _ => Fin (1 # 2)) 5 2).
  simpl. split; [reflexivity|].
  intros [|[|k]] w f Hw Hf; simpl in *; try discriminate.
  injection Hw as <-. injection Hf as <-. split; [discriminate | reflexivity].
Defined.

(** C6.  The step loop never tests the starting state: a walk that
    starts in a terminal state takes a step first and is stored only when
    a later state is terminal, so every stored walk has at least two
    states.  On the alternating chain started in its terminal state 0 the
    stored walk is 0, 1, 0; the walk loop on the same input stores the
    one-state walk. *)
Theorem terminal_start_not_closed :
  let weights := [[Fin 0; Fin 1]; [Fin 1; Fin 0]] in
  let draws := fun _ : nat => Fin (1 # 2) in
  let nb := fst (run_notebook weights (StartInt 0) [0] 2 draws) in
  (all_walks nb = [[Some 0; Some 1; Some 0]] /\ final_states nb = [Some 0]) /\
  all_walks
    (fst (walk_budgeted_loop (cumulative_matrix (P (setup_cell weights)))
            (StartInt 0) [0] draws 5 1 not_started)) = [[Some 0]] /\
  (forall p starting_state terminal_states steps draws',
     Forall (fun w => 2 <= length w)
       (all_walks
          (fst (simulation_cell p starting_state terminal_states steps
                  draws')))).
Proof.
  cbv zeta. split; [vm_compute; split; reflexivity|].
  split; [vm_compute; reflexivity|].
  intros p starting_state terminal_states steps draws'.
  destruct (simulation_cell_inv p starting_state terminal_states steps draws')
    as [Hnot | Hinv]; cbv zeta in *.
  - rewrite Hnot. constructor.
  - destruct Hinv as [Hall _]. eapply Forall_impl; [|exact Hall].
    now intros w [_ Hlen].
Qed.

(** ** Absorption proportions *)

Lemma py_div_pos (a b : nat) :
  b <> 0 ->
  py_div a b = Ok (Fin (inject_Z (Z.of_nat a) / inject_Z (Z.of_nat b))).
Proof.
  intro Hb. unfold py_div. destruct (Nat.eqb_spec b 0); [contradiction|].
  reflexivity.
Qed.

Lemma absorption_proportions_ok (terminal_states : list nat)
    (final_states : list state) :
  final_states <> [] ->
  absorption_proportions terminal_states final_states =
  Ok (map (fun j => Fin (inject_Z (Z.of_nat (absorbed final_states j)) /
                         inject_Z (Z.of_nat (length final_states))))
          terminal_states).
Proof.
  intro Hne. assert (Hlen : length final_states <> 0).
  { destruct final_states; [congruence | discriminate]. }
  induction terminal_states as [|j rest IH]; simpl.
  - reflexivity.
  - rewrite (py_div_pos _ Hlen). simpl. rewrite IH. reflexivity.
Qed.

Lemma fold_add_Fin (qs : list Q) (a : Q) :
  exists t, fold_left add (map Fin qs) (Fin a) = Fin t /\
            (t == a + fold_right Qplus 0 qs)%Q.
Proof.
  revert a. induction qs as [|x qs IH]; intro a; simpl.
  - exists a. split; [reflexivity | ring].
  - destruct (IH (a + x)%Q) as [t [Ht Hq]]. exists t.
    split; [exact Ht|]. rewrite Hq. ring.
Qed.

Lemma proportions_total (c : nat -> nat) (n : Q) (l : list nat) :
  (fold_right Qplus 0 (map (fun j => inject_Z (Z.of_nat (c j)) / n) l) ==
   inject_Z (Z.of_nat (list_sum (map c l))) / n)%Q.
Proof.
  induction l as [|j l IH]; simpl.
  - unfold Qdiv. ring.
  - rewrite IH, Nat2Z.inj_add, inject_Z_plus. unfold Qdiv. ring.
Qed.

(** In a list without repetition a member is counted once. *)
Lemma counted_once (k : nat) (l : list nat) :
  NoDup l -> In k l ->
  list_sum (map (fun j => if Nat.eqb k j then 1 else 0) l) = 1.
Proof.
  intro Hnd. induction Hnd as [|x l Hx Hnd IH]; intro Hin; [contradiction|].
  simpl. destruct (Nat.eqb_spec k x) as [-> | Hneq].
  - assert (H0 : list_sum (map (fun j => if Nat.eqb x j then 1 else 0) l) = 0).
    { clear IH Hin Hnd. induction l as [|y l IHl]; simpl; [reflexivity|].
      destruct (Nat.eqb_spec x y) as [-> | _].
      - exfalso. apply Hx. now left.
      - apply IHl. intro H. apply Hx. now right. }
    now rewrite H0.
  - destruct Hin as [-> | Hin]; [congruence|]. now apply IH.
Qed.

Lemma list_sum_pointwise (b c : nat -> nat) (l : list nat) :
  list_sum (map (fun j => b j + c j) l) =
  list_sum (map b l) + list_sum (map c l).
Proof. induction l as [|j l IH]; simpl; [reflexivity | lia]. Qed.

(** Every recorded final state is counted for exactly one terminal
    state. *)
Lemma absorbed_total (terminal_states : list nat) (final_states : list state) :
  NoDup terminal_states ->
  recorded_terminal terminal_states final_states ->
  list_sum (map (absorbed final_states) terminal_states) =
  length final_states.
Proof.
  intros Hnd Hrec. induction Hrec as [|f fs Hf _ IH].
  - induction terminal_states as [|j l IHl]; simpl; [reflexivity|].
    apply IHl. now inversion Hnd.
  - destruct f as [k|]; [|discriminate]. simpl in Hf.
    apply existsb_exists in Hf. destruct Hf as [x [Hx Hkx]].
    apply Nat.eqb_eq in Hkx. subst x.
    rewrite map_ext with
      (g := fun j => (if Nat.eqb k j then 1 else 0) + absorbed fs j).
    + rewrite list_sum_pointwise, IH, (@counted_once k _ Hnd Hx). reflexivity.
    + intro j. unfold absorbed. simpl. now destruct (Nat.eqb k j).
Qed.

Lemma proportions_sum_to_one (terminal_states : list nat)
    (final_states : list state) :
  NoDup terminal_states ->
  recorded_terminal terminal_states final_states ->
  final_states <> [] ->
  sums_to_one (absorption_proportions terminal_states final_states).
Proof.
  intros Hnd Hrec Hne. unfold sums_to_one.
  rewrite (absorption_proportions_ok terminal_states Hne).
  set (n := inject_Z (Z.of_nat (length final_states))).
  destruct (fold_add_Fin
              (map (fun j =>
                      (inject_Z (Z.of_nat (absorbed final_states j)) / n)%Q)
                   terminal_states) 0%Q) as [t [Ht Hq]].
  eexists. exists t. split; [reflexivity|]. split.
  - unfold sum, zero. rewrite <- Ht. now rewrite map_map.
  - rewrite Hq, proportions_total, (absorbed_total Hnd Hrec), Qplus_0_l.
    fold n. apply Qmult_inv_r. unfold n. intro H0.
    assert (Hz : Z.of_nat (length final_states) = 0%Z).
    { unfold Qeq in H0. simpl in H0. lia. }
    destruct final_states; [congruence | discriminate].
Qed.

Lemma recorded_terminal_distinct (terminal_states : list nat)
    (final_states : list state) :
  recorded_terminal terminal_states final_states ->
  recorded_terminal (nodup Nat.eq_dec terminal_states) final_states.
Proof.
  intro H. eapply Forall_impl; [|exact H].
  intros [k|] Hk; simpl in *; [|discriminate].
  apply existsb_exists in Hk. destruct Hk as [x [Hx Hkx]].
  apply existsb_exists. exists x. split; [now apply nodup_In | exact Hkx].
Qed.

(** C7.  Whenever at least one walk was stored, the proportions computed
    from the final states of either loop, one for each distinct terminal
    state, add up to 1: every recorded final state is one of the terminal
    states and is counted for exactly that one.  When [terminal_states]
    lists its states without repetition these are the proportions the
    cell computes. *)
Theorem absorption_proportions_sum_to_one (terminal_states : list nat) :
  let distinct := nodup Nat.eq_dec terminal_states in
  (forall p starting_state steps draws,
     let nb :=
       fst (simulation_cell p starting_state terminal_states steps draws) in
     final_states nb <> [] ->
     sums_to_one (absorption_proportions distinct (final_states nb)) /\
     (NoDup terminal_states ->
      sums_to_one (absorption_proportions terminal_states (final_states nb)))) /\
  (forall PC starting_state draws fuel total_iterations nb,
     let nb' :=
       fst (walk_budgeted_loop PC starting_state terminal_states draws fuel
              total_iterations nb) in
     recorded_terminal terminal_states (final_states nb) ->
     final_states nb' <> [] ->
     sums_to_one (absorption_proportions distinct (final_states nb')) /\
     (NoDup terminal_states ->
      sums_to_one (absorption_proportions terminal_states (final_states nb')))).
Proof.
  cbv zeta.
  assert (Hboth : forall fs, recorded_terminal terminal_states fs -> fs <> [] ->
    sums_to_one (absorption_proportions (nodup Nat.eq_dec terminal_states) fs) /\
    (NoDup terminal_states ->
     sums_to_one (absorption_proportions terminal_states fs))).
  { intros fs Hrec Hne. split.
    - apply proportions_sum_to_one; trivial.
      + apply NoDup_nodup.
      + now apply recorded_terminal_distinct.
    - intro Hnd. now apply proportions_sum_to_one. }
  split.
  - intros p starting_state steps draws.
    destruct (simulation_cell_inv p starting_state terminal_states steps draws)
      as [Hnot | Hinv].
    + rewrite Hnot. simpl. congruence.
    + destruct Hinv as (_ & _ & _ & _ & Hrec). now apply Hboth.
  - intros PC starting_state draws fuel n nb Hrec. apply Hboth.
    destruct (walk_budgeted_loop_extends PC starting_state terminal_states
                draws fuel n nb) as (ws & fs & _ & Hf & _ & _ & Hr).
    rewrite Hf. now apply Forall_app.
Qed.

(** The theorem at the four-state chain of the notebook with terminal
    states 0 and 3, after six steps. *)
Lemma absorption_proportions_sum_to_one_witness :
  let p := A2 [[Fin 0; Fin 1; Fin 0; Fin 0];
               [Fin (1 # 2); Fin 0; Fin (1 # 2); Fin 0];
               [Fin 0; Fin (1 # 2); Fin 0; Fin (1 # 2)];
               [Fin 0; Fin 0; Fin 1; Fin 0]] in
  let nb := fst (simulation_cell p (StartInt 1) [0; 3] 6
                   (fun n => if Nat.ltb n 2 then Fin (3 # 4) else Fin (1 # 4))) in
  sums_to_one (absorption_proportions [0; 3] (final_states nb)).
Proof.
  cbv zeta.
  assert (Hne : final_states
            (fst (simulation_cell
                    (A2 [[Fin 0; Fin 1; Fin 0; Fin 0];
                         [Fin (1 # 2); Fin 0; Fin (1 # 2); Fin 0];
                         [Fin 0; Fin (1 # 2); Fin 0; Fin (1 # 2)];
                         [Fin 0; Fin 0; Fin 1; Fin 0]])
                    (StartInt 1) [0; 3] 6
                    (fun n => if Nat.ltb n 2 then Fin (3 # 4) else Fin (1 # 4))))
          <> []).
  { intro H. vm_compute in H. discriminate H. }
  apply (proj1 (absorption_proportions_sum_to_one [0; 3]) _ _ _ _ Hne).
  constructor; [simpl; intros [H | []]; discriminate|].
  constructor; [simpl; tauto | constructor].
Defined.

(** C8, amended.  With no recorded final state, computing the
    proportions for a non-empty list of terminal states raises Python's
    ZeroDivisionError at the first division; for an empty list of
    terminal states it returns the empty list.  A computed proportion is
    always finite, never NaN. *)
Theorem no_walk_division_by_zero (terminal_states : list nat) :
  (terminal_states <> [] ->
   absorption_proportions terminal_states [] = Raise ZeroDivisionError) /\
  (terminal_states = [] -> absorption_proportions terminal_states [] = Ok []) /\
  (forall final_states ps,
     absorption_proportions terminal_states final_states = Ok ps ->
     Forall (fun x => is_finite x = true) ps).
Proof.
  split; [|split].
  - destruct terminal_states as [|j rest]; [congruence | reflexivity].
  - now intros ->.
  - intros final_states. induction terminal_states as [|j rest IH];
      intros ps H; simpl in H.
    + injection H as <-. constructor.
    + unfold py_div in H. destruct (Nat.eqb (length final_states) 0);
        [discriminate|]. simpl in H.
      destruct (absorption_proportions rest final_states) as [ps'|e];
        simpl in H; [|discriminate].
      injection H as <-. constructor; [reflexivity | now apply IH].
Qed.

(** The theorem at the notebook's terminal list [0]. *)
Lemma no_walk_division_by_zero_witness :
  absorption_proportions [0] [] = Raise ZeroDivisionError.
Proof.
  apply (proj1 (no_walk_division_by_zero [0])). discriminate.
Defined.

(** C8 as first stated fails: with no terminal state and no final state
    the proportions are the empty list and nothing is raised. *)
Lemma empty_aggregate_counterexample :
  ~ (forall terminal_states : list nat,
       exists e, absorption_proportions terminal_states [] = Raise e).
Proof.
  intro H. destruct (H []) as [e He]. discriminate He.
Qed.

(** ** Holding times *)

Lemma zero_rate_scale (r : Q) : (r == 0)%Q -> div one (Fin r) = PInf.
Proof.
  intro Hr. simpl. apply Qeq_bool_iff in Hr. rewrite Hr. reflexivity.
Qed.

(** C9, amended.  For a visited state whose leaving rate is the zero
    +0.0 the scale [1 / q[i]] is +inf and the draw is computed from it:
    nothing is raised, and the holding time is +inf for every positive
    variate (NaN for the variate 0).  For the zero -0.0 the scale is -inf
    and the draw is refused with ValueError ("scale < 0"); no condition
    of the cell's own is signalled in either case. *)
Theorem zero_rate_holding_time (q : list float) (draws : nat -> float)
    (k s : nat) :
  (forall r, nth_error q s = Some (Fin r) -> (r == 0)%Q ->
     walk_times q draws k [Some s] = Ok ([[mul PInf (draws k)]], k + 1) /\
     all_times q draws k [[Some s]] = Ok ([[[mul PInf (draws k)]]], k + 1)) /\
  (forall e, draws k = Fin e -> (0 < e)%Q -> mul PInf (draws k) = PInf) /\
  (draws k = Fin 0 -> mul PInf (draws k) = NaN) /\
  (nth_error q s = Some NZero ->
     div one NZero = NInf /\
     walk_times q draws k [Some s] = Raise ValueError /\
     all_times q draws k [[Some s]] = Raise ValueError).
Proof.
  split; [|split; [|split]].
  - intros r Hq Hr.
    assert (Hw : walk_times q draws k [Some s] =
                 Ok ([[mul PInf (draws k)]], k + 1)).
    { simpl. rewrite Hq. cbn [bind map]. rewrite (zero_rate_scale Hr).
      unfold exponential. simpl. now rewrite Nat.add_0_r. }
    split; [exact Hw|]. cbn [all_times]. rewrite Hw. reflexivity.
  - intros e -> He. simpl. unfold signed_inf.
    apply Qltb_lt in He. rewrite He.
    destruct (Qeq_bool e 0) eqn:E; [|reflexivity].
    apply Qeq_bool_iff in E. apply Qltb_lt in He. rewrite E in He.
    discriminate He.
  - intros ->. reflexivity.
  - intro Hq.
    assert (Hw : walk_times q draws k [Some s] = Raise ValueError).
    { simpl. rewrite Hq. reflexivity. }
    split; [reflexivity|]. split; [exact Hw|].
    cbn [all_times]. rewrite Hw. reflexivity.
Qed.

(** The theorem at a single state with leaving rate +0.0. *)
Lemma zero_rate_holding_time_witness :
  walk_times [Fin 0] (fun _ => Fin 1) 0 [Some 0] = Ok ([[PInf]], 1) /\
  walk_times [NZero] (fun _ => Fin 1) 0 [Some 0] = Raise ValueError.
Proof.
  split.
  - apply (proj1 (@zero_rate_holding_time [Fin 0] (fun _ => Fin 1) 0 0)
             0%Q eq_refl (Qeq_refl 0)).
  - apply (proj2 (proj2 (proj2
             (@zero_rate_holding_time [NZero] (fun _ => Fin 1) 0 0)))
             eq_refl).
Defined.

(** C9 as first stated fails: the draw for a state with rate +0.0
    raises nothing. *)
Lemma undefined_holding_time_counterexample :
  ~ (forall (q : list float) (draws : nat -> float) (k s : nat) (r : Q),
       nth_error q s = Some (Fin r) -> (r == 0)%Q ->
       exists e, walk_times q draws k [Some s] = Raise e).
Proof.
  intro H.
  destruct (H [Fin 0] (fun _ => Fin 1) 0 0 0%Q eq_refl (Qeq_refl 0)) as [e He].
  discriminate He.
Qed.

(** * Further properties of the notebook *)

(** ** The sampler as an inverse cumulative distribution *)

Lemma Qltb_false (a b : Q) : Qltb a b = false <-> (b <= a)%Q.
Proof. unfold Qltb. rewrite negb_false_iff. apply Qle_bool_iff. Qed.

Lemma le_trans (x y z : float) : le x y -> le y z -> le x z.
Proof.
  destruct x, y, z; simpl; try tauto. intros H1 H2.
  eapply Qle_trans; eassumption.
Qed.

Lemma nondecreasing_far (row : list float) (d k : nat) (x y : float) :
  nondecreasing row ->
  nth_error row k = Some x -> nth_error row (S (k + d)) = Some y -> le x y.
Proof.
  intro Hmono. revert y. induction d as [|d IH]; intros y Hx Hy.
  - rewrite Nat.add_0_r in Hy. eapply Hmono; eassumption.
  - destruct (nth_error row (S (k + d))) as [z|] eqn:Hz.
    + apply le_trans with z; [now apply IH|].
      apply (Hmono (S (k + d)) z y Hz).
      now rewrite Nat.add_succ_r in Hy.
    + apply nth_error_None in Hz.
      assert (Hlt : S (k + S d) < length row)
        by (apply nth_error_Some; congruence).
      lia.
Qed.

Lemma ltb_below (a : Q) (c c' : float) :
  le c c' -> ltb (Fin a) c' = false -> ltb (Fin a) c = false.
Proof.
  destruct c as [d| | | |], c' as [b| | | |]; simpl; try tauto.
  intros Hle Hb. apply Qltb_false in Hb. apply Qltb_false.
  eapply Qle_trans; eassumption.
Qed.

Lemma ltb_smaller_draw (a a' : Q) (c : float) :
  (a <= a')%Q -> ltb (Fin a') c = true -> ltb (Fin a) c = true.
Proof.
  destruct c as [b| | | |]; simpl; trivial; intros Hle Hb;
    apply Qltb_lt in Hb; apply Qltb_lt; eapply Qle_lt_trans; eassumption.
Qed.

(** X1.  On a non-decreasing cumulative row the sampler returns [j]
    exactly for the draws of the interval between the cumulative value
    before [j] and the one at [j]: [u < row[j]], and [row[j-1] <= u] when
    [j] is not 0. *)
Theorem generate_state_interval (PC_row : list float) (a : Q) (j : nat) :
  nondecreasing PC_row ->
  (generate_state (Fin a) PC_row = Some j <->
   (exists c, nth_error PC_row j = Some c /\ ltb (Fin a) c = true) /\
   (forall j' c', j = S j' -> nth_error PC_row j' = Some c' ->
                  ltb (Fin a) c' = false)).
Proof.
  intro Hmono. rewrite generate_state_first. unfold first_exceeding.
  split; intros [Hj Hbefore]; (split; [exact Hj|]).
  - intros j' c' -> Hc'. apply (Hbefore j' c'); [lia | exact Hc'].
  - intros k c Hk Hc. destruct j as [|j']; [lia|].
    destruct (nth_error PC_row j') as [c'|] eqn:Hc'.
    + specialize (Hbefore j' c' eq_refl Hc').
      destruct (Nat.eq_dec k j') as [-> | Hne]; [congruence|].
      apply ltb_below with c'; [|exact Hbefore].
      apply (@nondecreasing_far PC_row (j' - S k) k c c' Hmono Hc).
      replace (S (k + (j' - S k))) with j' by lia. exact Hc'.
    + apply nth_error_None in Hc'. destruct Hj as [c0 [Hc0 _]].
      assert (Hlt : S j' < length PC_row)
        by (apply nth_error_Some; congruence).
      lia.
Qed.

(** The theorem on the row [0.25, 0.75, 1]: the draw 0.5 lies between
    0.25 and 0.75. *)
Lemma generate_state_interval_witness :
  generate_state (Fin (1 # 2)) [Fin (1 # 4); Fin (3 # 4); Fin 1] = Some 1.
Proof.
  apply (@generate_state_interval [Fin (1 # 4); Fin (3 # 4); Fin 1] (1 # 2) 1).
  - intros [|[|[|k]]] x y Hx Hy; simpl in *; try discriminate;
      injection Hx as <-; injection Hy as <-; simpl; discriminate.
  - split.
    + exists (Fin (3 # 4)). split; reflexivity.
    + intros j' c' Hj Hc. injection Hj as <-. simpl in Hc.
      injection Hc as <-. reflexivity.
Defined.

(** X2.  The sampler is monotone in the draw: a smaller draw returns an
    index, and one that is not larger. *)
Theorem generate_state_monotone (PC_row : list float) (a a' : Q) (j' : nat) :
  (a <= a')%Q ->
  generate_state (Fin a') PC_row = Some j' ->
  exists j, generate_state (Fin a) PC_row = Some j /\ j <= j'.
Proof.
  intros Hle Hj'. apply generate_state_first in Hj'.
  destruct Hj' as [[c [Hc Hlt]] _].
  destruct (generate_state_some (Fin a) PC_row) as [j Hj].
  { exists c. split; [eapply nth_error_In; eassumption|].
    eapply ltb_smaller_draw; eassumption. }
  exists j. split; [exact Hj|].
  apply generate_state_first in Hj. destruct Hj as [_ Hmin].
  destruct (Nat.le_gt_cases j j') as [Hok | Hgt]; [exact Hok|].
  specialize (Hmin j' c Hgt Hc).
  rewrite (ltb_smaller_draw _ Hle Hlt) in Hmin. discriminate Hmin.
Qed.

Lemma generate_state_monotone_witness :
  exists j, generate_state (Fin (1 # 10)) [Fin (1 # 4); Fin (3 # 4); Fin 1]
            = Some j /\ j <= 1.
Proof.
  apply (@generate_state_monotone [Fin (1 # 4); Fin (3 # 4); Fin 1]
           (1 # 10) (1 # 2) 1).
  - discriminate.
  - reflexivity.
Defined.

(** X3.  On a 1-D vector, as for the starting distribution,
    [cumulative_matrix] keeps the length, puts at position [j] the sum of
    the entries 0..j, ends with the sum of the whole vector, and is
    non-decreasing when the entries are non-negative. *)
Theorem cumulative_matrix_vector (v : list float) :
  exists c, cumulative_matrix (A1 v) = A1 c /\
    shape (A1 c) = shape (A1 v) /\
    (forall j, j < length v -> nth_error c j = Some (sum (firstn (S j) v))) /\
    (v <> [] -> last c zero = sum v) /\
    (Forall nonneg v -> nondecreasing c).
Proof.
  exists (cumulative_vector v). split; [reflexivity|].
  split; [simpl; now rewrite cumulative_vector_length|].
  split; [intros j Hj; now apply cumulative_vector_nth|].
  split; [apply cumulative_vector_last | apply cumulative_vector_nondecreasing].
Qed.

Lemma cumulative_matrix_vector_witness :
  exists c, cumulative_matrix (A1 [Fin 0; Fin 1; Fin 0; Fin 0]) = A1 c /\
            last c zero = sum [Fin 0; Fin 1; Fin 0; Fin 0] /\ nondecreasing c.
Proof.
  destruct (cumulative_matrix_vector [Fin 0; Fin 1; Fin 0; Fin 0])
    as (c & Hc & _ & _ & Hlast & Hmono).
  exists c. split; [exact Hc|]. split.
  - apply Hlast. discriminate.
  - apply Hmono. repeat constructor; simpl; discriminate.
Defined.

(** ** The step loop on a proper chain *)

Lemma generate_state_in_range (u : float) (row : list float) :
  (exists a, u = Fin a /\ (0 <= a < 1)%Q) -> reaches_one row ->
  exists j, generate_state u row = Some j /\ j < length row.
Proof.
  intros [a [-> [_ Ha]]] [b [Hlast Hb]].
  destruct row as [|c rest].
  { simpl in Hlast. injection Hlast as <-. exfalso.
    apply (Qlt_not_le 0 1); [reflexivity | exact Hb]. }
  destruct (generate_state_some (Fin a) (c :: rest)) as [j Hj].
  - exists (Fin b). split.
    + rewrite <- Hlast.
      destruct (exists_last (l := c :: rest)) as [body [x ->]];
        [discriminate|].
      rewrite last_last. apply in_or_app. right. now left.
    + apply ltb_Fin. eapply Qlt_le_trans; eassumption.
  - exists j. split; [exact Hj|]. apply generate_state_first in Hj.
    destruct Hj as [[x [Hx _]] _]. apply nth_error_Some. congruence.
Qed.

Section ProperChain.

Variable n : nat.
Variable PC : ndarray.
Variable starting_state : starting.
Variable terminal_states : list nat.
Variable draws : nat -> float.

Hypothesis PC_chain : chain n PC.
Hypothesis start_valid : start_ok n starting_state.
Hypothesis draws_unit : unit_draws draws.

Lemma first_state_valid (k : nat) :
  valid_state n (fst (first_state starting_state draws k)).
Proof.
  unfold first_state. destruct starting_state as [s|p]; simpl.
  - now exists s.
  - destruct start_valid as [Hlen Hone].
    destruct (generate_state_in_range (draws_unit k) Hone) as [j [Hj Hlt]].
    rewrite Hj. exists j. split; [reflexivity|].
    now rewrite cumulative_vector_length, Hlen in Hlt.
Qed.

Lemma next_state_valid (s : state) (k : nat) :
  valid_state n s ->
  exists PC_row s', getitem PC s = Ok PC_row /\
    generate_state_on (draws k) PC_row = Ok s' /\ valid_state n s'.
Proof.
  intros [x [-> Hx]]. destruct PC_chain as [m [-> [Hlen Hrows]]].
  destruct (nth_error m x) as [row|] eqn:Hrow.
  2: { apply nth_error_None in Hrow. lia. }
  destruct (Hrows row (nth_error_In _ _ Hrow)) as [Hn Hone].
  destruct (generate_state_in_range (draws_unit k) Hone) as [j [Hj Hlt]].
  exists (Row row), (Some j). simpl. rewrite Hrow, Hj.
  repeat split. exists j. split; [reflexivity | lia].
Qed.

Lemma simulation_step_safe (nb : notebook) :
  safe n nb ->
  exists nb', simulation_step PC starting_state terminal_states draws nb
              = (nb', None) /\ safe n nb'.
Proof.
  intros (Hi & Hw & Hall). unfold simulation_step.
  destruct (next_state_valid (rand_calls nb) Hi)
    as (PC_row & s' & -> & -> & Hs').
  destruct (in_terminal terminal_states s').
  - pose proof (first_state_valid (S (rand_calls nb))) as Hfirst.
    destruct (first_state starting_state draws (S (rand_calls nb)))
      as [i0 k']. simpl in Hfirst.
    eexists. split; [reflexivity|]. repeat split; simpl; trivial.
    + now constructor.
    + apply Forall_app. split; [exact Hall|]. constructor; [|constructor].
      apply Forall_app. split; [exact Hw | now constructor].
  - eexists. split; [reflexivity|]. repeat split; simpl; trivial.
    apply Forall_app. split; [exact Hw | now constructor].
Qed.

Lemma simulation_loop_safe (steps : nat) (nb : notebook) :
  safe n nb ->
  exists nb', simulation_loop PC starting_state terminal_states draws steps nb
              = (nb', Completed) /\ safe n nb'.
Proof.
  revert nb. induction steps as [|steps IH]; intros nb Hsafe; simpl.
  - now exists nb.
  - destruct (simulation_step_safe Hsafe) as [nb1 [-> Hsafe1]].
    now apply IH.
Qed.

End ProperChain.

(** X5.  When the matrix passes the row-sum assertion, its cumulative
    matrix has [n] rows of length [n] that each reach 1, the starting
    state is an index below [n] (or a distribution over [n] states whose
    cumulative vector reaches 1) and every draw lies in [0, 1), the
    simulation cell runs all its steps without an error, and every state
    it visits or stores is an index below [n]: never None, never out of
    range. *)
Theorem simulation_cell_runs (p : ndarray) (n : nat)
    (starting_state : starting) (terminal_states : list nat) (steps : nat)
    (draws : nat -> float) :
  row_sums_ok p = true -> chain n (cumulative_matrix p) ->
  start_ok n starting_state -> unit_draws draws ->
  exists nb, simulation_cell p starting_state terminal_states steps draws
             = (nb, Completed) /\
    valid_state n (i nb) /\ Forall (valid_state n) (walk nb) /\
    Forall (Forall (valid_state n)) (all_walks nb).
Proof.
  intros Hok Hchain Hstart Hdraws. unfold simulation_cell. rewrite Hok. simpl.
  pose proof (@first_state_valid n _ _ Hstart Hdraws 0) as Hfirst.
  destruct (first_state starting_state draws 0) as [i0 k]. simpl in Hfirst.
  apply (@simulation_loop_safe n _ _ terminal_states _ Hchain Hstart Hdraws).
  repeat split; simpl; trivial. now constructor.
Qed.

(** The theorem on the alternating two-state chain. *)
Lemma simulation_cell_runs_witness :
  exists nb,
    simulation_cell (A2 [[Fin 0; Fin 1]; [Fin 1; Fin 0]]) (StartInt 0) [0] 4
      (fun _ => Fin (1 # 2)) = (nb, Completed) /\
    valid_state 2 (i nb) /\ Forall (valid_state 2) (walk nb) /\
    Forall (Forall (valid_state 2)) (all_walks nb).
Proof.
  apply (@simulation_cell_runs (A2 [[Fin 0; Fin 1]; [Fin 1; Fin 0]]) 2
           (StartInt 0) [0] 4 (fun _ => Fin (1 # 2))).
  - vm_compute. reflexivity.
  - eexists. split; [vm_compute; reflexivity|]. split; [reflexivity|].
    intros row [<- | [<- | []]]; (split; [reflexivity|]);
      eexists; (split; [reflexivity | discriminate]).
  - simpl. lia.
  - intro k. exists (1 # 2)%Q. split; [reflexivity|].
    split; [discriminate | reflexivity].
Defined.

(** ** Accounting for steps and random values *)

Lemma transitions_snoc (ws : list (list state)) (w : list state) :
  transitions (ws ++ [w]) = transitions ws + (length w - 1).
Proof.
  unfold transitions. rewrite map_app, list_sum_app. simpl. lia.
Qed.

Lemma first_state_draws (starting_state : starting) (draws : nat -> float)
    (k : nat) :
  snd (first_state starting_state draws k) = k + start_draws starting_state.
Proof. destruct starting_state; simpl; lia. Qed.

Section Accounting.

Variable PC : ndarray.
Variable starting_state : starting.
Variable terminal_states : list nat.
Variable draws : nat -> float.

Lemma simulation_step_counts (nb : notebook) :
  walk nb <> [] ->
  let r := simulation_step PC starting_state terminal_states draws nb in
  walk (fst r) <> [] /\
  match snd r with
  | None =>
      steps_done (fst r) = steps_done nb + 1 /\
      rand_calls (fst r) + start_draws starting_state * length (all_walks nb) =
      rand_calls nb + 1 +
      start_draws starting_state * length (all_walks (fst r))
  | Some _ => steps_done (fst r) = steps_done nb
  end.
Proof.
  intro Hw. cbv zeta. unfold simulation_step, steps_done.
  destruct (getitem PC (i nb)) as [PC_row|e]; simpl; [|now split].
  destruct (generate_state_on (draws (rand_calls nb)) PC_row) as [i'|e];
    simpl; [|now split].
  destruct (in_terminal terminal_states i').
  - pose proof (first_state_draws starting_state draws (S (rand_calls nb)))
      as Hk.
    destruct (first_state starting_state draws (S (rand_calls nb)))
      as [i0 k']. simpl in *. subst k'.
    split; [discriminate|]. rewrite transitions_snoc, !length_app. simpl.
    destruct (walk nb); [congruence|]. simpl. split; nia.
  - simpl. split; [now destruct (walk nb)|]. rewrite length_app. simpl.
    destruct (walk nb); [congruence|]. simpl. split; lia.
Qed.

Lemma simulation_loop_counts (steps : nat) (nb : notebook) :
  walk nb <> [] ->
  let r := simulation_loop PC starting_state terminal_states draws steps nb in
  steps_done (fst r) <= steps_done nb + steps /\
  (snd r = Completed ->
   steps_done (fst r) = steps_done nb + steps /\
   rand_calls (fst r) + start_draws starting_state * length (all_walks nb) =
   rand_calls nb + steps +
   start_draws starting_state * length (all_walks (fst r))).
Proof.
  revert nb. induction steps as [|steps IH]; intros nb Hw; cbv zeta; simpl.
  - split; [lia|]. intros _. split; lia.
  - pose proof (@simulation_step_counts nb Hw) as Hstep. cbv zeta in Hstep.
    destruct (simulation_step PC starting_state terminal_states draws nb)
      as [nb1 [e|]]; simpl in *.
    + destruct Hstep as [_ Hstep]. split; [lia | discriminate].
    + destruct Hstep as [Hw1 [HT Hr]].
      specialize (IH nb1 Hw1). cbv zeta in IH. destruct IH as [Hle Hdone].
      split; [lia|]. intro Hc. destruct (Hdone Hc) as [HT' Hr'].
      split; lia.
Qed.

End Accounting.



(** X7.  A simulation cell that ends without an error has read one
    random value per step, and one more for the first state and for each
    restart when the starting state is a distribution; with an integer
    starting state it has read exactly [steps] values. *)
Theorem rand_calls_accounted (p : ndarray) (starting_state : starting)
    (terminal_states : list nat) (steps : nat) (draws : nat -> float) :
  let r := simulation_cell p starting_state terminal_states steps draws in
  snd r = Completed ->
  rand_calls (fst r) =
  steps + start_draws starting_state * (1 + length (all_walks (fst r))).
Proof.
  cbv zeta. unfold simulation_cell.
  destruct (negb (row_sums_ok p)); simpl; [discriminate|].
  pose proof (first_state_draws starting_state draws 0) as Hk.
  destruct (first_state starting_state draws 0) as [i0 k]. simpl in Hk.
  set (nb0 := {| i := i0; walk := [i0]; all_walks := [];
                 final_states := []; rand_calls := k |}).
  pose proof (@simulation_loop_counts (cumulative_matrix p) starting_state
                terminal_states draws steps nb0) as H.
  cbv zeta in H. destruct H as [_ Hdone]; [discriminate|].
  intro Hc. destruct (Hdone Hc) as [_ Hr].
  change (rand_calls nb0) with k in Hr.
  change (length (all_walks nb0)) with 0 in Hr. lia.
Qed.

Lemma rand_calls_accounted_witness :
  let r := simulation_cell (A2 [[Fin 0; Fin 1]; [Fin 1; Fin 0]])
             (StartDist [Fin 0; Fin 1]) [0] 5 (fun _ => Fin (1 # 2)) in
  rand_calls (fst r) = 5 + 1 * (1 + length (all_walks (fst r))).
Proof.
  cbv zeta.
  apply (@rand_calls_accounted (A2 [[Fin 0; Fin 1]; [Fin 1; Fin 0]])
           (StartDist [Fin 0; Fin 1]) [0] 5 (fun _ => Fin (1 # 2))).
  vm_compute. reflexivity.
Defined.

(** ** Errors of the step loop *)

(** X8.  A current state that is not a row index stops the step loop at
    its next round and leaves the lists as they were: an integer beyond
    the last row raises IndexError before any random value is read, and
    None (left by a sampler that fell through) raises ValueError on a
    cumulative matrix with at least two entries. *)
Theorem simulation_loop_errors (m : list (list float))
    (starting_state : starting) (terminal_states : list nat)
    (draws : nat -> float) (steps : nat) (nb : notebook) :
  let r := simulation_loop (A2 m) starting_state terminal_states draws
             (S steps) nb in
  (forall k, i nb = Some k -> length m <= k ->
             r = (nb, Raised IndexError)) /\
  (i nb = None -> 2 <= length (concat m) ->
   snd r = Raised ValueError /\ all_walks (fst r) = all_walks nb /\
   final_states (fst r) = final_states nb /\ walk (fst r) = walk nb /\
   rand_calls (fst r) = S (rand_calls nb)).
Proof.
  cbv zeta. split.
  - intros k Hi Hk. simpl. unfold simulation_step. rewrite Hi. simpl.
    apply nth_error_None in Hk. now rewrite Hk.
  - intros Hi Hlen. simpl. unfold simulation_step. rewrite Hi. simpl.
    destruct (concat m) as [|x [|y rest]]; simpl in Hlen; try lia.
    simpl. now repeat split.
Qed.

Lemma simulation_loop_errors_witness :
  simulation_loop (A2 [[Fin 0; Fin 1]; [Fin 1; Fin 1]]) (StartInt 2) [0]
    (fun _ => Fin (1 # 2)) 3
    {| i := Some 2; walk := [Some 2]; all_walks := []; final_states := [];
       rand_calls := 0 |} =
  ({| i := Some 2; walk := [Some 2]; all_walks := []; final_states := [];
      rand_calls := 0 |}, Raised IndexError).
Proof.
  apply (proj1 (simulation_loop_errors [[Fin 0; Fin 1]; [Fin 1; Fin 1]]
                  (StartInt 2) [0] (fun _ => Fin (1 # 2)) 2
                  {| i := Some 2; walk := [Some 2]; all_walks := [];
                     final_states := []; rand_calls := 0 |}) 2 eq_refl).
  simpl. lia.
Defined.

(** ** The walk loop *)

(** X9.  A walk loop that runs to completion has appended exactly
    [total_iterations] walks and as many final states, in step; the last
    state of each new walk is terminal and is its only terminal state. *)
Theorem walk_budgeted_loop_completed (PC : ndarray)
    (starting_state : starting) (terminal_states : list nat)
    (draws : nat -> float) (fuel total_iterations : nat) (nb : notebook) :
  let r := walk_budgeted_loop PC starting_state terminal_states draws fuel
             total_iterations nb in
  snd r = Completed ->
  exists ws fs,
    all_walks (fst r) = all_walks nb ++ ws /\
    final_states (fst r) = final_states nb ++ fs /\
    length ws = total_iterations /\ length fs = total_iterations /\
    Forall (absorbed_at_end terminal_states) ws /\
    outputs_agree ws fs.
Proof.
  cbv zeta. intro Hdone.
  destruct (walk_budgeted_loop_extends PC starting_state terminal_states
              draws fuel total_iterations nb)
    as (ws & fs & Hw & Hf & Ha & Hp & _).
  pose proof (walk_budgeted_loop_count PC starting_state terminal_states
                draws fuel total_iterations nb Hdone) as Hcount.
  rewrite Hw, length_app in Hcount.
  assert (Hlen : length ws = total_iterations) by lia.
  pose proof (Forall2_length Hp) as Hfs.
  exists ws, fs. split; [exact Hw|]. split; [exact Hf|].
  split; [exact Hlen|]. split; [lia|]. split; [exact Ha|].
  now apply parallel_agree.
Qed.

Lemma walk_budgeted_loop_completed_witness :
  let r := walk_budgeted_loop (A2 [[Fin 0; Fin 1]; [Fin 1; Fin 1]])
             (StartInt 1) [0] (fun _ => Fin (1 # 2)) 5 2 not_started in
  exists ws fs,
    all_walks (fst r) = all_walks not_started ++ ws /\
    final_states (fst r) = final_states not_started ++ fs /\
    length ws = 2 /\ length fs = 2 /\
    Forall (absorbed_at_end [0]) ws /\ outputs_agree ws fs.
Proof.
  cbv zeta.
  apply (@walk_budgeted_loop_completed (A2 [[Fin 0; Fin 1]; [Fin 1; Fin 1]])
           (StartInt 1) [0] (fun _ => Fin (1 # 2)) 5 2 not_started).
  vm_compute. reflexivity.
Defined.

Lemma while_loop_no_terminal (PC : ndarray) (draws : nat -> float)
    (fuel : nat) (nb : notebook) :
  snd (while_loop PC [] draws fuel nb) <> Completed.
Proof.
  revert nb. induction fuel as [|fuel IH]; intro nb; simpl.
  - destruct (i nb); simpl; discriminate.
  - assert (Hno : in_terminal [] (i nb) = false) by now destruct (i nb).
    rewrite Hno. destruct (getitem PC (i nb)) as [PC_row|e]; simpl;
      [|discriminate].
    destruct (generate_state_on (draws (rand_calls nb)) PC_row); simpl;
      [apply IH | discriminate].
Qed.

(** X10.  With no terminal state the walk loop never completes a walk:
    whatever the fuel, the first iteration is still running or has
    raised an error, and the output lists are left as they were. *)
Theorem walk_budgeted_loop_no_terminal (PC : ndarray)
    (starting_state : starting) (draws : nat -> float)
    (fuel total_iterations : nat) (nb : notebook) :
  let r := walk_budgeted_loop PC starting_state [] draws fuel
             (S total_iterations) nb in
  snd r <> Completed /\
  all_walks (fst r) = all_walks nb /\ final_states (fst r) = final_states nb.
Proof.
  cbv zeta. simpl. unfold walk_iteration.
  destruct (first_state starting_state draws (rand_calls nb)) as [i0 k].
  match goal with |- context [while_loop _ _ _ fuel ?nb0] =>
    pose proof (while_loop_no_terminal PC draws fuel nb0) as Hno;
    pose proof (@while_loop_spec PC [] draws fuel nb0) as Hspec end.
  cbv zeta in Hspec. destruct Hspec as (Hw & Hf & _).
  { exists []. split; [reflexivity | constructor]. }
  destruct (while_loop PC [] draws fuel _) as [nb' st]. simpl in *.
  destruct st; [congruence | |]; simpl; repeat split; trivial; discriminate.
Qed.

(** X11.  When the integer starting state is itself terminal, every
    iteration of the walk loop stores the one-state walk at once: after
    [total_iterations] iterations that many copies of it and of its final
    state were appended, no random value was read and no fuel was
    needed. *)
Theorem walk_budgeted_loop_terminal_start (PC : ndarray) (s : nat)
    (terminal_states : list nat) (draws : nat -> float)
    (fuel total_iterations : nat) (nb : notebook) :
  in_terminal terminal_states (Some s) = true ->
  let r := walk_budgeted_loop PC (StartInt s) terminal_states draws fuel
             total_iterations nb in
  snd r = Completed /\
  all_walks (fst r) = all_walks nb ++ repeat [Some s] total_iterations /\
  final_states (fst r) = final_states nb ++ repeat (Some s) total_iterations /\
  rand_calls (fst r) = rand_calls nb.
Proof.
  intro Hterm. cbv zeta. revert nb.
  induction total_iterations as [|n IH]; intro nb; simpl.
  - now rewrite !app_nil_r.
  - unfold walk_iteration. simpl.
    assert (Hloop : forall nb0, i nb0 = Some s ->
              while_loop PC terminal_states draws fuel nb0 = (nb0, Completed)).
    { intros nb0 Hi. destruct fuel; simpl; now rewrite Hi, Hterm. }
    rewrite Hloop by reflexivity. cbn [fst snd i walk all_walks final_states
                                       rand_calls].
    match goal with |- context [walk_budgeted_loop _ _ _ _ _ _ ?nb1] =>
      destruct (IH nb1) as (Hs & Hw & Hf & Hr) end.
    cbn [all_walks final_states rand_calls] in Hw, Hf, Hr.
    rewrite Hs, Hw, Hf, Hr, <- !app_assoc. now repeat split.
Qed.

Lemma walk_budgeted_loop_terminal_start_witness :
  all_walks
    (fst (walk_budgeted_loop (A2 [[Fin 0; Fin 1]; [Fin 1; Fin 1]])
            (StartInt 0) [0] (fun _ => Fin (1 # 2)) 0 3 not_started)) =
  [] ++ repeat [Some 0] 3.
Proof.
  apply (@walk_budgeted_loop_terminal_start
           (A2 [[Fin 0; Fin 1]; [Fin 1; Fin 1]]) 0 [0]
           (fun _ => Fin (1 # 2)) 0 3 not_started).
  reflexivity.
Defined.

(** ** Holding times *)

Lemma walk_times_lengths (q : list float) (draws : nat -> float)
    (walk : list state) (k k' : nat) (ts : list (list float)) :
  walk_times q draws k walk = Ok (ts, k') ->
  Forall2 (fun s t => length t = match s with Some _ => 1 | None => length q end)
          walk ts.
Proof.
  revert k k' ts. induction walk as [|s rest IH]; intros k k' ts H; simpl in H.
  - injection H as <- _. constructor.
  - destruct (q_getitem q s) as [rate|e] eqn:Hq; simpl in H; [|discriminate].
    unfold exponential in H.
    destruct (existsb signbit (map (div one) rate));
      simpl in H; [discriminate|].
    destruct (walk_times q draws (k + length rate) rest) as [[ts' k1]|e] eqn:Hr;
      simpl in H; [|discriminate].
    injection H as <- _. constructor; [|eapply IH; eassumption].
    rewrite length_map, length_combine, length_seq, length_map, Nat.min_id.
    destruct s as [x|]; simpl in Hq.
    + destruct (nth_error q x); [|discriminate]. now injection Hq as <-.
    + now injection Hq as <-.
Qed.

(** X12.  When the holding-time cell succeeds, it has produced one list
    of times per stored walk, each with one entry per visited state; the
    entry of an integer state holds a single time. *)
Theorem all_times_lengths (q : list float) (draws : nat -> float)
    (all_walks : list (list state)) (k k' : nat)
    (times : list (list (list float))) :
  all_times q draws k all_walks = Ok (times, k') ->
  length times = length all_walks /\
  Forall2 (fun w ts =>
             length ts = length w /\
             Forall2 (fun s t => length t =
                        match s with Some _ => 1 | None => length q end) w ts)
          all_walks times.
Proof.
  revert k k' times.
  induction all_walks as [|w rest IH]; intros k k' times H; simpl in H.
  - injection H as <- _. split; [reflexivity | constructor].
  - destruct (walk_times q draws k w) as [[ts k1]|e] eqn:Hw; simpl in H;
      [|discriminate].
    destruct (all_times q draws k1 rest) as [[tss k2]|e] eqn:Hr; simpl in H;
      [|discriminate].
    injection H as <- _. destruct (IH _ _ _ Hr) as [Hlen Hall].
    pose proof (walk_times_lengths _ _ _ _ Hw) as Hts.
    split; [simpl; now rewrite Hlen|].
    constructor; [|exact Hall].
    split; [symmetry; eapply Forall2_length; eassumption | exact Hts].
Qed.

Lemma all_times_lengths_witness :
  exists times k',
    all_times [Fin 1; Fin 2] (fun _ => Fin 1) 0
              [[Some 1; Some 0]; [Some 0]] = Ok (times, k') /\
    length times = 2.
Proof.
  eexists. eexists. split; [vm_compute; reflexivity|].
  refine (proj1 (@all_times_lengths [Fin 1; Fin 2] (fun _ => Fin 1)
                   [[Some 1; Some 0]; [Some 0]] 0 _ _ _)).
  vm_compute. reflexivity.
Defined.

Lemma scale_not_negative (r : float) :
  unsigned r -> signbit (div one r) = false.
Proof.
  destruct r as [a| | | |]; simpl; try contradiction; [|reflexivity].
  intro Ha. destruct (Qeq_bool a 0) eqn:E; [reflexivity|].
  simpl. apply Qltb_false. apply Qeq_bool_neq in E.
  apply Qlt_le_weak. apply Qlt_shift_div_l; lra.
Qed.

Lemma exponential_nonneg (rate : list float) (draws : nat -> float) (k : nat) :
  Forall unsigned rate ->
  exists t, exponential (map (div one) rate) draws k = Ok t.
Proof.
  intro H. unfold exponential.
  assert (Hno : existsb signbit (map (div one) rate) = false).
  { induction H as [|r rate Hr _ IH]; cbn [map existsb]; [reflexivity|].
    now rewrite (scale_not_negative _ Hr). }
  rewrite Hno. eexists. reflexivity.
Qed.

Lemma q_getitem_nonneg (q : list float) (s : state) (rate : list float) :
  Forall unsigned q -> q_getitem q s = Ok rate -> Forall unsigned rate.
Proof.
  intros Hq H. destruct s as [x|]; simpl in H.
  - destruct (nth_error q x) as [r|] eqn:Hr; [|discriminate].
    injection H as <-. constructor; [|constructor].
    rewrite Forall_forall in Hq. apply Hq. eapply nth_error_In; eassumption.
  - now injection H as <-.
Qed.

(** X13.  With leaving rates whose sign bit is clear (+0.0, a positive
    value or +inf; not -0.0) the only failure of the holding-time loop
    over a walk is an index error: it succeeds when every integer state
    of the walk indexes [q], and raises IndexError when some state lies
    beyond the end of [q]. *)
Theorem walk_times_index_error (q : list float) (draws : nat -> float)
    (walk : list state) :
  Forall unsigned q ->
  ((forall s, In (Some s) walk -> s < length q) ->
   forall k, exists ts k', walk_times q draws k walk = Ok (ts, k')) /\
  (forall s, In (Some s) walk -> length q <= s ->
   forall k, walk_times q draws k walk = Raise IndexError).
Proof.
  intro Hq. induction walk as [|s0 rest [IHok IHerr]].
  - split; [intros _ k; now exists [], k | intros s []].
  - assert (Hhead : forall k,
              (exists x, s0 = Some x /\ length q <= x /\
                         q_getitem q s0 = Raise IndexError) \/
              (exists rate t, q_getitem q s0 = Ok rate /\
                 exponential (map (div one) rate) draws k = Ok t /\
                 match s0 with Some x => x < length q | None => True end)).
    { intro k. destruct s0 as [x|]; simpl.
      - destruct (nth_error q x) as [r|] eqn:Hr.
        + right. assert (Hnn : Forall unsigned [r]).
          { constructor; [|constructor]. rewrite Forall_forall in Hq.
            apply Hq. eapply nth_error_In; eassumption. }
          destruct (exponential_nonneg draws k Hnn) as [t Ht].
          exists [r], t. repeat split; trivial.
          apply nth_error_Some. congruence.
        + left. exists x. apply nth_error_None in Hr. now repeat split.
      - right. destruct (exponential_nonneg draws k Hq) as [t Ht].
        now exists q, t. }
    split.
    + intros Hall k. destruct (Hhead k) as [(x & -> & Hx & _) | (rate & t & Hg & He & _)].
      * specialize (Hall x (or_introl eq_refl)). lia.
      * destruct (IHok (fun s Hs => Hall s (or_intror Hs)) (k + length rate))
          as (ts & k' & Hrest).
        exists (t :: ts), k'. simpl. rewrite Hg. simpl. rewrite He. simpl.
        now rewrite Hrest.
    + intros s Hin Hs k. simpl.
      destruct (Hhead k) as [(x & -> & Hx & Hg) | (rate & t & Hg & He & Hok)].
      * now rewrite Hg.
      * rewrite Hg. simpl. rewrite He. simpl.
        destruct Hin as [-> | Hin]; [lia|].
        now rewrite (IHerr s Hin Hs).
Qed.

Lemma walk_times_index_error_witness :
  walk_times [Fin 1; Fin 2] (fun _ => Fin 1) 0 [Some 0; Some 2; Some 1]
  = Raise IndexError.
Proof.
  apply (proj2 (@walk_times_index_error [Fin 1; Fin 2] (fun _ => Fin 1)
                  [Some 0; Some 2; Some 1]
                  ltac:(repeat constructor; simpl; discriminate)) 2).
  - right. left. reflexivity.
  - simpl. lia.
Defined.

Lemma mul_positive (a e : Q) :
  (0 < a)%Q -> mul (Fin a) (Fin e) = Fin (a * e).
Proof.
  intro Ha. simpl.
  assert (Hsign : Qltb a 0 = false) by (apply Qltb_false; lra).
  rewrite Hsign. simpl. destruct (Qltb e 0) eqn:He.
  - apply Qltb_lt in He.
    assert (Hnz : Qeq_bool (a * e) 0 = false).
    { destruct (Qeq_bool (a * e) 0) eqn:E; [|reflexivity].
      apply Qeq_bool_iff in E. exfalso.
      assert (Hneg : (a * e < 0)%Q).
      { rewrite <- (Qmult_0_r a). apply Qmult_lt_l; assumption. }
      lra. }
    now rewrite Hnz.
  - now rewrite andb_false_r.
Qed.

Lemma div_positive (a b : Q) :
  (0 < b)%Q -> div (Fin a) (Fin b) = Fin (a / b).
Proof.
  intro Hb. simpl.
  assert (Hnz : Qeq_bool b 0 = false).
  { destruct (Qeq_bool b 0) eqn:E; [|reflexivity].
    apply Qeq_bool_iff in E. lra. }
  assert (Hsign : Qltb b 0 = false) by (apply Qltb_false; lra).
  now rewrite Hnz, Hsign, andb_false_r.
Qed.

Lemma Qinv_negative (r : Q) : (r < 0)%Q -> (/ r < 0)%Q.
Proof.
  intro Hr. destruct (Qlt_le_dec (/ r) 0) as [Hlt | Hge]; [exact Hlt|].
  exfalso. assert (H1 : (r * / r == 1)%Q) by (apply Qmult_inv_r; lra).
  assert (H2 : (r * / r <= 0)%Q).
  { rewrite <- (Qmult_0_l (/ r)). apply Qmult_le_compat_r; lra. }
  lra.
Qed.

(** X14.  The holding time drawn for one state with a finite leaving
    rate [r] and the exponential variate [e]: for a positive rate it is
    [e / r] (the scale [1 / r] times the variate), and for a negative rate
    the draw is refused with ValueError. *)
Theorem holding_time_by_rate (q : list float) (draws : nat -> float)
    (k s : nat) (r e : Q) :
  nth_error q s = Some (Fin r) -> draws k = Fin e ->
  ((0 < r)%Q ->
   walk_times q draws k [Some s] = Ok ([[Fin (1 / r * e)]], k + 1)) /\
  ((r < 0)%Q -> walk_times q draws k [Some s] = Raise ValueError).
Proof.
  intros Hq He.
  assert (Hdiv : ~ (r == 0)%Q -> div one (Fin r) = Fin (1 / r)).
  { intro Hr. simpl. destruct (Qeq_bool r 0) eqn:E; [|reflexivity].
    apply Qeq_bool_iff in E. contradiction. }
  split; intro Hr; simpl; rewrite Hq; cbn [bind map];
    (rewrite Hdiv by lra); unfold exponential; cbn [existsb signbit].
  - assert (Hpos : (0 < 1 / r)%Q) by (apply Qlt_shift_div_l; lra).
    assert (Hno : Qltb (1 / r) 0 = false).
    { apply Qltb_false. now apply Qlt_le_weak. }
    rewrite Hno. cbn [orb bind length seq combine map fst snd].
    rewrite Nat.add_0_r, He, (mul_positive _ Hpos). reflexivity.
  - assert (Hneg : Qltb (1 / r) 0 = true).
    { apply Qltb_lt. unfold Qdiv. rewrite Qmult_1_l. now apply Qinv_negative. }
    now rewrite Hneg.
Qed.

Lemma holding_time_by_rate_witness :
  walk_times [Fin 2] (fun _ => Fin 3) 0 [Some 0] = Ok ([[Fin (1 / 2 * 3)]], 1).
Proof.
  apply (proj1 (@holding_time_by_rate [Fin 2] (fun _ => Fin 3) 0 0 2 3
                  eq_refl eq_refl)).
  reflexivity.
Defined.

(** ** Proportions *)

Lemma absorbed_le (final_states : list state) (j : nat) :
  absorbed final_states j <= length final_states.
Proof. unfold absorbed. apply filter_length_le. Qed.

Lemma count_fraction (c n : nat) :
  c <= n -> 0 < n ->
  proportion (Fin (inject_Z (Z.of_nat c) / inject_Z (Z.of_nat n))).
Proof.
  intros Hc Hn. eexists. split; [reflexivity|].
  assert (Hpos : (0 < inject_Z (Z.of_nat n))%Q).
  { change 0%Q with (inject_Z 0). rewrite <- Zlt_Qlt. lia. }
  assert (Hc0 : (0 <= inject_Z (Z.of_nat c))%Q).
  { change 0%Q with (inject_Z 0). rewrite <- Zle_Qle. lia. }
  assert (Hcn : (inject_Z (Z.of_nat c) <= inject_Z (Z.of_nat n))%Q).
  { rewrite <- Zle_Qle. lia. }
  split.
  - apply Qle_shift_div_l; [exact Hpos|]. lra.
  - apply Qle_shift_div_r; [exact Hpos|]. lra.
Qed.

(** X15.  When at least one final state was recorded, the absorption
    cell raises nothing and returns one value per listed terminal state,
    each a finite number between 0 and 1. *)
Theorem absorption_proportions_bounds (terminal_states : list nat)
    (final_states : list state) :
  final_states <> [] ->
  exists ps, absorption_proportions terminal_states final_states = Ok ps /\
    length ps = length terminal_states /\ Forall proportion ps.
Proof.
  intro Hne. rewrite (absorption_proportions_ok terminal_states Hne).
  eexists. split; [reflexivity|]. split; [apply length_map|].
  apply Forall_map. apply Forall_forall. intros j _.
  apply count_fraction; [apply absorbed_le|].
  destruct final_states; [congruence | simpl; lia].
Qed.

Lemma absorption_proportions_bounds_witness :
  exists ps, absorption_proportions [0; 3] [Some 0; Some 3; Some 3] = Ok ps /\
    length ps = 2 /\ Forall proportion ps.
Proof.
  apply (@absorption_proportions_bounds [0; 3] [Some 0; Some 3; Some 3]).
  discriminate.
Defined.

Lemma recorded_all_states (n : nat) (values : list state) :
  Forall (valid_state n) values -> recorded_terminal (seq 0 n) values.
Proof.
  intro H. eapply Forall_impl; [|exact H].
  intros s [k [-> Hk]]. simpl. apply existsb_exists. exists k.
  split; [apply in_seq; lia | apply Nat.eqb_refl].
Qed.

(** X16.  When every visited state is a row index of [P] and some state
    was visited, the proportions of time over all states are computed
    without an error and add up to 1. *)
Theorem time_in_state_sums_to_one (p : ndarray)
    (all_walks : list (list state)) :
  Forall (Forall (valid_state (np_len p))) all_walks ->
  concat all_walks <> [] ->
  sums_to_one (time_in_state p all_walks).
Proof.
  intros Hvalid Hne. unfold time_in_state, all_states.
  apply proportions_sum_to_one; [apply seq_NoDup | | exact Hne].
  apply recorded_all_states. now apply Forall_concat.
Qed.

Lemma time_in_state_sums_to_one_witness :
  sums_to_one
    (time_in_state (A2 [[Fin 0; Fin 1]; [Fin 1; Fin 0]])
       [[Some 0; Some 1; Some 0]; [Some 0; Some 1]]).
Proof.
  apply time_in_state_sums_to_one.
  - repeat constructor; eexists; (split; [reflexivity | simpl; lia]).
  - discriminate.
Defined.

(** ** Peaks *)

Lemma max_from_ints (c : nat) (rest : list state) :
  (forall s, In s rest -> exists x, s = Some x) ->
  exists m, max_from (Some c) rest = Ok (Some m) /\
    (m = c \/ In (Some m) rest) /\ c <= m /\
    (forall x, In (Some x) rest -> x <= m).
Proof.
  revert c. induction rest as [|s rest IH]; intros c Hint.
  - exists c. simpl. repeat split; auto. intros x [].
  - destruct (Hint s (or_introl eq_refl)) as [y ->]. simpl.
    destruct (Nat.ltb_spec c y) as [Hlt | Hle].
    + destruct (IH y (fun s Hs => Hint s (or_intror Hs)))
        as (m & Hm & Hin & Hge & Hall).
      exists m. split; [exact Hm|]. repeat split.
      * destruct Hin as [-> | Hin]; [right; now left | right; now right].
      * lia.
      * intros x [[= <-] | Hx]; [exact Hge | now apply Hall].
    + destruct (IH c (fun s Hs => Hint s (or_intror Hs)))
        as (m & Hm & Hin & Hge & Hall).
      exists m. split; [exact Hm|]. repeat split.
      * destruct Hin as [-> | Hin]; [now left | right; now right].
      * exact Hge.
      * intros x [[= <-] | Hx]; [lia | now apply Hall].
Qed.

Lemma max_from_none (maxitem : state) (rest : list state) :
  (maxitem = None /\ rest <> []) \/ In None rest ->
  max_from maxitem rest = Raise TypeError.
Proof.
  revert maxitem. induction rest as [|s rest IH]; intros maxitem H.
  - destruct H as [[_ H] | []]. congruence.
  - simpl. destruct s as [y|]; [|reflexivity].
    destruct maxitem as [c|]; [|reflexivity]. simpl.
    apply IH. right. destruct H as [[H _] | [H | H]];
      [discriminate | discriminate | exact H].
Qed.

(** X17.  [max] of a walk: on a non-empty walk of integer states it is a
    state of the walk that no other state exceeds; a walk of one state
    gives that state even if it is None; the empty walk raises
    ValueError; and a walk of two or more states that holds a None
    raises TypeError. *)
Theorem py_max_peak (w : list state) :
  (w <> [] -> (forall s, In s w -> exists x, s = Some x) ->
   exists m, py_max w = Ok (Some m) /\ In (Some m) w /\
             forall x, In (Some x) w -> x <= m) /\
  (forall s, w = [s] -> py_max w = Ok s) /\
  (w = [] -> py_max w = Raise ValueError) /\
  (In None w -> 2 <= length w -> py_max w = Raise TypeError).
Proof.
  split; [|split; [|split]].
  - intros Hne Hint. destruct w as [|s rest]; [congruence|].
    destruct (Hint s (or_introl eq_refl)) as [c ->].
    destruct (@max_from_ints c rest (fun s Hs => Hint s (or_intror Hs)))
      as (m & Hm & Hin & Hge & Hall).
    exists m. split; [exact Hm|]. split.
    + destruct Hin as [-> | Hin]; [now left | now right].
    + intros x [[= <-] | Hx]; [exact Hge | now apply Hall].
  - now intros s ->.
  - now intros ->.
  - intros Hin Hlen. destruct w as [|s rest]; [contradiction|].
    simpl. apply max_from_none. destruct Hin as [-> | Hin].
    + left. split; [reflexivity|]. destruct rest; [simpl in Hlen; lia|].
      discriminate.
    + now right.
Qed.

Lemma py_max_peak_witness :
  (exists m, py_max [Some 1; Some 2; Some 1; Some 0] = Ok (Some m) /\
     In (Some m) [Some 1; Some 2; Some 1; Some 0] /\
     forall x, In (Some x) [Some 1; Some 2; Some 1; Some 0] -> x <= m) /\
  py_max [Some 0; None] = Raise TypeError.
Proof.
  split.
  - apply (proj1 (py_max_peak [Some 1; Some 2; Some 1; Some 0]));
      [discriminate|].
    intros s [<- | [<- | [<- | [<- | []]]]]; eexists; reflexivity.
  - apply (proj2 (proj2 (proj2 (py_max_peak [Some 0; None])))).
    + right. now left.
    + simpl. lia.
Defined.

Lemma peaks_valid (n : nat) (all_walks : list (list state)) :
  Forall (fun w => w <> [] /\ Forall (valid_state n) w) all_walks ->
  exists ms, peaks all_walks = Ok ms /\ length ms = length all_walks /\
             Forall (valid_state n) ms.
Proof.
  induction 1 as [|w rest [Hne Hw] _ (ms & Hms & Hlen & Hvalid)].
  - exists []. repeat split. constructor.
  - rewrite Forall_forall in Hw. destruct w as [|s r]; [congruence|].
    destruct (Hw s (or_introl eq_refl)) as [c [-> Hc]].
    destruct (@max_from_ints c r) as (m & Hm & Hin & _).
    { intros s Hs. destruct (Hw s (or_intror Hs)) as [x [-> _]]. now exists x. }
    exists (Some m :: ms). simpl. rewrite Hm. simpl. rewrite Hms. simpl.
    split; [reflexivity|]. split; [now rewrite Hlen|].
    constructor; [|exact Hvalid].
    destruct Hin as [-> | Hin]; [now exists c|]. apply Hw. now right.
Qed.

(** X18.  When at least one walk is stored and the stored walks are
    non-empty lists of row indices of [P], the peaks cell raises nothing
    and the proportions of walks by highest state reached add up to 1. *)
Theorem peak_proportions_sum_to_one (p : ndarray)
    (all_walks : list (list state)) :
  all_walks <> [] ->
  Forall (fun w => w <> [] /\ Forall (valid_state (np_len p)) w) all_walks ->
  sums_to_one (peak_proportions p all_walks).
Proof.
  intros Hne Hvalid. unfold peak_proportions.
  destruct (peaks_valid Hvalid) as (ms & -> & Hlen & Hms). simpl.
  apply proportions_sum_to_one; [apply seq_NoDup | |].
  - now apply recorded_all_states.
  - intros ->. destruct all_walks; [congruence | discriminate].
Qed.

Lemma peak_proportions_sum_to_one_witness :
  sums_to_one
    (peak_proportions (A2 [[Fin 0; Fin 1]; [Fin 1; Fin 0]])
       [[Some 0; Some 1; Some 0]; [Some 0; Some 0]]).
Proof.
  apply peak_proportions_sum_to_one; [discriminate|].
  repeat constructor; try discriminate;
    eexists; (split; [reflexivity | simpl; lia]).
Defined.

(** ** Chains without chance *)

Lemma ltb_crisp (u u' c : float) :
  crisp c ->
  (exists a, u = Fin a /\ (0 <= a < 1)%Q) ->
  (exists a, u' = Fin a /\ (0 <= a < 1)%Q) ->
  ltb u c = ltb u' c.
Proof.
  intros Hc [a [-> Ha]] [a' [-> Ha']].
  destruct c as [b| | | |]; simpl in *; trivial.
  - destruct Hc as [Hb | Hb].
    + transitivity false; [|symmetry]; apply Qltb_false; lra.
    + transitivity true; [|symmetry]; apply Qltb_lt; lra.
  - transitivity false; [|symmetry]; apply Qltb_false; lra.
Qed.

Section Crisp.

Variable PC : ndarray.
Variable starting_state : starting.
Variable terminal_states : list nat.
Variables draws draws' : nat -> float.

Hypothesis PC_crisp : crisp_array PC.
Hypothesis start_crisp : crisp_start starting_state.
Hypothesis draws_unit : unit_draws draws.
Hypothesis draws'_unit : unit_draws draws'.

Lemma scan_crisp (row : list float) (k j : nat) :
  Forall crisp row -> scan (draws k) row j = scan (draws' k) row j.
Proof.
  intro H. revert j. induction H as [|c row Hc _ IH]; intro j; simpl.
  - reflexivity.
  - rewrite (@ltb_crisp _ _ c Hc (draws_unit k) (draws'_unit k)).
    destruct (ltb (draws' k) c); [reflexivity | apply IH].
Qed.

Lemma generate_state_on_crisp (s : state) (k : nat) (PC_row : indexed) :
  getitem PC s = Ok PC_row ->
  generate_state_on (draws k) PC_row = generate_state_on (draws' k) PC_row.
Proof.
  intro Hget.
  assert (Hmap : forall v, Forall crisp v ->
            map (ltb (draws k)) v = map (ltb (draws' k)) v).
  { intros v Hv. apply map_ext_in. intros c Hin.
    rewrite Forall_forall in Hv.
    apply (@ltb_crisp _ _ c (Hv c Hin) (draws_unit k) (draws'_unit k)). }
  destruct PC as [v|m], s as [x|]; simpl in Hget, PC_crisp.
  - destruct (nth_error v x); [|discriminate]. now injection Hget as <-.
  - injection Hget as <-. simpl. now rewrite (Hmap v PC_crisp).
  - destruct (nth_error m x) as [r|] eqn:Hr; [|discriminate].
    injection Hget as <-. simpl. unfold generate_state. f_equal.
    apply scan_crisp. rewrite Forall_forall in PC_crisp.
    apply PC_crisp. eapply nth_error_In; eassumption.
  - injection Hget as <-. simpl.
    rewrite (Hmap (concat m)); [reflexivity | now apply Forall_concat].
Qed.

Lemma first_state_crisp (k : nat) :
  first_state starting_state draws k = first_state starting_state draws' k.
Proof.
  unfold first_state. destruct starting_state as [s|p]; [reflexivity|].
  unfold generate_state. f_equal. now apply scan_crisp.
Qed.

Lemma simulation_step_crisp (nb : notebook) :
  simulation_step PC starting_state terminal_states draws nb =
  simulation_step PC starting_state terminal_states draws' nb.
Proof.
  unfold simulation_step.
  destruct (getitem PC (i nb)) as [PC_row|e] eqn:Hget; [|reflexivity].
  rewrite (generate_state_on_crisp _ (rand_calls nb) Hget).
  destruct (generate_state_on (draws' (rand_calls nb)) PC_row); [|reflexivity].
  now rewrite first_state_crisp.
Qed.

Lemma simulation_loop_crisp (steps : nat) (nb : notebook) :
  simulation_loop PC starting_state terminal_states draws steps nb =
  simulation_loop PC starting_state terminal_states draws' steps nb.
Proof.
  revert nb. induction steps as [|steps IH]; intro nb; simpl; [reflexivity|].
  rewrite simulation_step_crisp.
  destruct (simulation_step PC starting_state terminal_states draws' nb)
    as [nb' [e|]]; [reflexivity | apply IH].
Qed.

Lemma while_loop_crisp (fuel : nat) (nb : notebook) :
  while_loop PC terminal_states draws fuel nb =
  while_loop PC terminal_states draws' fuel nb.
Proof.
  revert nb. induction fuel as [|fuel IH]; intro nb; simpl; [reflexivity|].
  destruct (in_terminal terminal_states (i nb)); [reflexivity|].
  destruct (getitem PC (i nb)) as [PC_row|e] eqn:Hget; [|reflexivity].
  rewrite (generate_state_on_crisp _ (rand_calls nb) Hget).
  destruct (generate_state_on (draws' (rand_calls nb)) PC_row);
    [apply IH | reflexivity].
Qed.

Lemma walk_budgeted_loop_crisp (fuel total_iterations : nat) (nb : notebook) :
  walk_budgeted_loop PC starting_state terminal_states draws fuel
    total_iterations nb =
  walk_budgeted_loop PC starting_state terminal_states draws' fuel
    total_iterations nb.
Proof.
  revert nb. induction total_iterations as [|n IH]; intro nb; simpl;
    [reflexivity|].
  unfold walk_iteration. rewrite first_state_crisp.
  destruct (first_state starting_state draws' (rand_calls nb)) as [i0 k].
  rewrite while_loop_crisp.
  destruct (while_loop PC terminal_states draws' fuel _) as [nb' st].
  destruct st; [apply IH | reflexivity | reflexivity].
Qed.

End Crisp.

(** X19.  On a chain without chance (no cumulative value of the matrix
    or of the starting distribution lies strictly between 0 and 1, as for
    a matrix of zeros and ones) the random values do not matter: two
    sequences of draws from [0, 1) give the same result of the simulation
    cell, walks, final states and error included, and the same result of
    the walk loop. *)
Theorem draws_do_not_matter (p : ndarray) (starting_state : starting)
    (terminal_states : list nat) (draws draws' : nat -> float) :
  crisp_array (cumulative_matrix p) -> crisp_start starting_state ->
  unit_draws draws -> unit_draws draws' ->
  (forall steps,
     simulation_cell p starting_state terminal_states steps draws =
     simulation_cell p starting_state terminal_states steps draws') /\
  (forall fuel total_iterations nb,
     walk_budgeted_loop (cumulative_matrix p) starting_state terminal_states
       draws fuel total_iterations nb =
     walk_budgeted_loop (cumulative_matrix p) starting_state terminal_states
       draws' fuel total_iterations nb).
Proof.
  intros Hp Hstart Hd Hd'. split.
  - intro steps. unfold simulation_cell.
    destruct (negb (row_sums_ok p)); [reflexivity|].
    rewrite (@first_state_crisp starting_state draws draws' Hstart Hd Hd' 0).
    destruct (first_state starting_state draws' 0) as [i0 k].
    now apply simulation_loop_crisp.
  - intros fuel n nb. now apply walk_budgeted_loop_crisp.
Qed.

(** The theorem on the alternating chain [[0, 1], [1, 0]]: the draws 0.1
    and 0.9 give the same three steps. *)
Lemma draws_do_not_matter_witness :
  simulation_cell (A2 [[Fin 0; Fin 1]; [Fin 1; Fin 0]]) (StartInt 0) [1] 3
    (fun _ => Fin (1 # 10)) =
  simulation_cell (A2 [[Fin 0; Fin 1]; [Fin 1; Fin 0]]) (StartInt 0) [1] 3
    (fun _ => Fin (9 # 10)).
Proof.
  refine (proj1 (@draws_do_not_matter (A2 [[Fin 0; Fin 1]; [Fin 1; Fin 0]])
                   (StartInt 0) [1] (fun _ => Fin (1 # 10))
                   (fun _ => Fin (9 # 10)) _ _ _ _) 3).
  - cbn. repeat first [apply Forall_nil | apply Forall_cons];
      vm_compute; first [left; discriminate | right; discriminate].
  - exact I.
  - intro k. eexists. split; [reflexivity|]. split; [discriminate | reflexivity].
  - intro k. eexists. split; [reflexivity|]. split; [discriminate | reflexivity].
Defined.

(** ** Mean walk length *)

Lemma walk_lengths_total (ws : list (list state)) :
  Forall (fun w => 2 <= length w) ws ->
  fold_right Z.add 0%Z (map (fun w => (Z.of_nat (length w) - 1)%Z) ws) =
  Z.of_nat (transitions ws) /\ length ws <= transitions ws.
Proof.
  unfold transitions. induction 1 as [|w ws Hw _ [IH1 IH2]]; simpl.
  - split; [reflexivity | lia].
  - rewrite IH1. split; lia.
Qed.

Lemma simulation_cell_steps_done (p : ndarray) (starting_state : starting)
    (terminal_states : list nat) (steps : nat) (draws : nat -> float) :
  steps_done
    (fst (simulation_cell p starting_state terminal_states steps draws))
  <= steps.
Proof.
  unfold simulation_cell.
  destruct (negb (row_sums_ok p)); [unfold steps_done; simpl; lia|].
  destruct (first_state starting_state draws 0) as [i0 k].
  set (nb0 := {| i := i0; walk := [i0]; all_walks := [];
                 final_states := []; rand_calls := k |}).
  pose proof (@simulation_loop_counts (cumulative_matrix p) starting_state
                terminal_states draws steps nb0) as H.
  cbv zeta in H. destruct H as [Hle _]; [discriminate|].
  change (steps_done nb0) with 0 in Hle. lia.
Qed.

(** X20.  The mean walk length after the simulation cell: NaN when no
    walk was stored, and otherwise a finite value between 1 and [steps],
    since every stored walk made at least one transition and all stored
    transitions were taken from the step budget. *)
Theorem walk_steps_bounds (p : ndarray) (starting_state : starting)
    (terminal_states : list nat) (steps : nat) (draws : nat -> float) :
  let nb :=
    fst (simulation_cell p starting_state terminal_states steps draws) in
  (all_walks nb = [] -> walk_steps (all_walks nb) = NaN) /\
  (all_walks nb <> [] ->
   exists t, walk_steps (all_walks nb) = Fin t /\
             (1 <= t <= inject_Z (Z.of_nat steps))%Q).
Proof.
  cbv zeta. split; [intros ->; reflexivity|]. intro Hne.
  pose proof (simulation_cell_steps_done p starting_state terminal_states
                steps draws) as Hdone.
  unfold steps_done in Hdone.
  destruct (simulation_cell_inv p starting_state terminal_states steps draws)
    as [Hnot | Hinv]; cbv zeta in *.
  { rewrite Hnot in Hne. simpl in Hne. congruence. }
  destruct Hinv as [Hall _].
  set (ws := all_walks
               (fst (simulation_cell p starting_state terminal_states steps
                       draws))) in *.
  assert (Hlen : Forall (fun w => 2 <= length w) ws).
  { eapply Forall_impl; [|exact Hall]. now intros w [_ Hw]. }
  destruct (walk_lengths_total Hlen) as [Hsum Hge].
  assert (Hn : 0 < length ws) by (destruct ws; [congruence | simpl; lia]).
  assert (Hle : transitions ws <= steps) by lia.
  assert (Hpos : (0 < inject_Z (Z.of_nat (length ws)))%Q).
  { change 0%Q with (inject_Z 0). rewrite <- Zlt_Qlt. lia. }
  unfold walk_steps, np_mean. rewrite Hsum, length_map.
  rewrite (div_positive _ Hpos).
  eexists. split; [reflexivity|]. split.
  - apply Qle_shift_div_l; [exact Hpos|]. rewrite Qmult_1_l.
    rewrite <- Zle_Qle. lia.
  - apply Qle_shift_div_r; [exact Hpos|]. rewrite <- inject_Z_mult.
    rewrite <- Zle_Qle. nia.
Qed.

Lemma walk_steps_bounds_witness :
  let nb := fst (simulation_cell (A2 [[Fin 0; Fin 1]; [Fin 1; Fin 0]])
                   (StartInt 0) [0] 5 (fun _ => Fin (1 # 2))) in
  exists t, walk_steps (all_walks nb) = Fin t /\ (1 <= t <= inject_Z 5)%Q.
Proof.
  cbv zeta.
  apply (proj2 (walk_steps_bounds (A2 [[Fin 0; Fin 1]; [Fin 1; Fin 0]])
                  (StartInt 0) [0] 5 (fun _ => Fin (1 # 2)))).
  intro H. vm_compute in H. discriminate H.
Defined.

(** ** Where walks start *)

Lemma simulation_loop_starts (PC : ndarray) (s : nat)
    (terminal_states : list nat) (draws : nat -> float) (steps : nat)
    (nb : notebook) :
  (exists rest, walk nb = Some s :: rest) ->
  Forall (fun w => exists rest, w = Some s :: rest) (all_walks nb) ->
  let nb' := fst (simulation_loop PC (StartInt s) terminal_states draws
                    steps nb) in
  (exists rest, walk nb' = Some s :: rest) /\
  Forall (fun w => exists rest, w = Some s :: rest) (all_walks nb').
Proof.
  revert nb. induction steps as [|steps IH]; intros nb Hw Hall; cbv zeta; simpl.
  - now split.
  - unfold simulation_step.
    destruct (getitem PC (i nb)) as [PC_row|e]; simpl; [|now split].
    destruct (generate_state_on (draws (rand_calls nb)) PC_row) as [i'|e];
      simpl; [|now split].
    destruct Hw as [rest Hw].
    destruct (in_terminal terminal_states i'); simpl; apply IH; simpl.
    + now exists [].
    + apply Forall_app. split; [exact Hall|]. constructor; [|constructor].
      exists (rest ++ [i']). now rewrite Hw.
    + exists (rest ++ [i']). now rewrite Hw.
    + exact Hall.
Qed.

(** X21.  With an integer starting state, every walk stored by the
    simulation cell, and the walk in progress when it ends, begins with
    that state (unless the assertion stopped the cell before it began). *)
Theorem walks_start_at_starting_state (p : ndarray) (s : nat)
    (terminal_states : list nat) (steps : nat) (draws : nat -> float) :
  let nb := fst (simulation_cell p (StartInt s) terminal_states steps draws) in
  Forall (fun w => exists rest, w = Some s :: rest) (all_walks nb) /\
  (row_sums_ok p = true -> exists rest, walk nb = Some s :: rest).
Proof.
  cbv zeta. unfold simulation_cell.
  destruct (row_sums_ok p); simpl.
  - match goal with |- context [simulation_loop ?PC _ _ _ _ ?nb0] =>
      pose proof (@simulation_loop_starts PC s terminal_states draws steps nb0)
        as H end.
    cbv zeta in H. destruct H as [Hw Hall].
    + now exists [].
    + constructor.
    + split; [exact Hall | intros _; exact Hw].
  - split; [constructor | discriminate].
Qed.

Lemma walks_start_at_starting_state_witness :
  exists rest,
    walk (fst (simulation_cell (A2 [[Fin 0; Fin 1]; [Fin 1; Fin 0]])
                 (StartInt 0) [1] 4 (fun _ => Fin (1 # 2)))) = Some 0 :: rest.
Proof.
  apply (proj2 (walks_start_at_starting_state
                  (A2 [[Fin 0; Fin 1]; [Fin 1; Fin 0]]) 0 [1] 4
                  (fun _ => Fin (1 # 2)))).
  vm_compute. reflexivity.
Defined.
